(** * Heredity: exact inference over a gene / trait inheritance network

    A shallow embedding of [heredity.py] and the properties of its inference
    core: the subset enumerator [powerset], the evaluator [joint_probability],
    the accumulator [update], the normaliser [normalize] and the driver
    [main].

    Conventions of the embedding.
    - The numeric functions are given twice.  Outside module [B64] Python
      floats are read as exact rationals ([Q]): [==] is the numeric equality
      of [Q], and Python's [!=] on numbers is its negation; the statements
      on these definitions hold up to the rounding of the program.  Module
      [B64] has the same functions with the binary64 operations the program
      performs, in the order it performs them; a property that rounding
      decides is stated on [B64].
    - A Python [set] of names is a [gset string].  The order in which a set
      is iterated is not specified by Python; [elements] fixes one.  Sums
      of floats depend on that order, so the statements on [B64] use loops
      whose order the program fixes: the persons of [people], an explicit
      sequence of calls, the subsets of a set of one name.
    - A [dict] is the list of its items in insertion order; its keys are
      pairwise distinct.  Indexing is [getitem], which raises [KeyError].
    - Exceptions are values of [exn], carried by the [result] monad.
    - [print] calls only write to standard output and are left out. *)

From Stdlib Require Import QArith Lia Lqa.
From Stdlib Require Floats.
From stdpp Require Import gmap strings list pretty.

#[local] Set Warnings "-clear-no-such-hyp".
#[local] Set Warnings "-inexact-float".

(** ** Exceptions and the result monad *)

Inductive exn : Type :=
  | KeyError
  | UnboundLocalError
  | ZeroDivisionError.

Inductive result (A : Type) : Type :=
  | Ok (a : A)
  | Raise (e : exn).
Arguments Ok {A} a.
Arguments Raise {A} e.

#[global] Instance result_ret : MRet result := λ A a, Ok a.
#[global] Instance result_bind : MBind result := λ A B k m,
  match m with
  | Ok a => k a
  | Raise e => Raise e
  end.

(** A [for] loop whose body may raise: the first exception ends the loop. *)
Fixpoint foldM {S A : Type} (body : S → A → result S) (s : S) (l : list A)
    : result S :=
  match l with
  | [] => Ok s
  | a :: l' => s' ← body s a; foldM body s' l'
  end.

(** Every element of [l] is sent through [f], in order. *)
Fixpoint forM {A B : Type} (f : A → result B) (l : list A) : result (list B) :=
  match l with
  | [] => Ok []
  | a :: l' => b ← f a; bs ← forM f l'; Ok (b :: bs)
  end.

(** ** Dictionaries keyed by names *)

Definition keys {V : Type} (d : list (string * V)) : list string := map fst d.

(** [d[k]] *)
Fixpoint getitem {V : Type} (d : list (string * V)) (k : string) : result V :=
  match d with
  | [] => Raise KeyError
  | (k', v) :: d' => if decide (k' = k) then Ok v else getitem d' k
  end.

(** ** Population model (the rows built by [load_data]) *)

Record Person : Type := {
  name : string;
  mother : option string;
  father : option string;
  trait : option bool
}.

(** Both parent references present, or both absent. *)
Definition parents_paired (r : Person) : bool :=
  match mother r, father r with
  | Some _, Some _ | None, None => true
  | _, _ => false
  end.

Definition well_formed (people : list (string * Person)) : Prop :=
  Forall (λ kv, parents_paired kv.2 = true) people.

(** ** The constant tables [PROBS] *)

Local Open Scope Q_scope.

(** The keys 0, 1, 2 of [PROBS["gene"]] and [PROBS["trait"]]. *)
Inductive gene_count : Type := G0 | G1 | G2.

Definition PROBS_gene (g : gene_count) : Q :=
  match g with
  | G2 => 0.01
  | G1 => 0.03
  | G0 => 0.96
  end.

Definition PROBS_trait (g : gene_count) (t : bool) : Q :=
  match g, t with
  | G2, true => 0.65
  | G2, false => 0.35
  | G1, true => 0.56
  | G1, false => 0.44
  | G0, true => 0.01
  | G0, false => 0.99
  end.

Definition PROBS_mutation : Q := 0.01.

(** ** [powerset] *)

(** [itertools.combinations(l, r)]: the [r]-element subsequences of [l], in
    lexicographic order of positions. *)
Fixpoint combinations {A : Type} (l : list A) (r : nat) : list (list A) :=
  match r, l with
  | 0%nat, _ => [[]]
  | S _, [] => []
  | S r', x :: l' => map (cons x) (combinations l' r') ++ combinations l' r
  end.

(** [chain.from_iterable(combinations(s, r) for r in range(len(s) + 1))] *)
Definition all_combinations {A : Type} (l : list A) : list (list A) :=
  flat_map (combinations l) (seq 0 (length l + 1)%nat).

Definition powerset (s : gset string) : list (gset string) :=
  let s := elements s in
  map list_to_set (all_combinations s).

(** ** [joint_probability] *)

(** The function's local variables that live across loop iterations.
    [from_mother] and [from_father] are unbound until first assigned and
    keep their value from one person to the next. *)
Record locals : Type := {
  probabilites : list Q;
  from_mother : option Q;
  from_father : option Q
}.

(** Reading a local variable. *)
Definition read (v : option Q) : result Q :=
  match v with
  | Some x => Ok x
  | None => Raise UnboundLocalError
  end.

(** Lines 155-160 and 163-168: the probability that a parent passes on the
    gene. *)
Definition transmission (one_gene two_genes : gset string) (parent : string) : Q :=
  if decide (parent ∈ one_gene) then 0.5
  else if decide (parent ∈ two_genes) then 1 - PROBS_mutation
  else PROBS_mutation.

(** Lines 170-175: the factor multiplied into [person_prob]. *)
Definition inherited (person_genes : gene_count) (from_mother from_father : Q) : Q :=
  match person_genes with
  | G2 => from_mother * from_father
  | G1 => (1 - from_mother) * from_father + (1 - from_father) * from_mother
  | G0 => (1 - from_mother) * (1 - from_father)
  end.

Definition person_genes_of (one_gene two_genes : gset string) (person : string)
    : gene_count :=
  if decide (person ∈ two_genes) then G2
  else if decide (person ∈ one_gene) then G1
  else G0.

(** One iteration of [for person in people]. *)
Definition joint_probability_person (people : list (string * Person))
    (one_gene two_genes have_trait : gset string)
    (st : locals) (person : string) : result locals :=
  let person_prob := 1 in
  let person_genes := person_genes_of one_gene two_genes person in
  let person_trait := bool_decide (person ∈ have_trait) in
  if decide (person ∉ one_gene ∨ person ∉ two_genes) then
    r ← getitem people person;
    if decide (mother r ≠ None ∨ father r ≠ None) then
      let st :=
        match mother r with
        | Some mother =>
            {| probabilites := probabilites st;
               from_mother := Some (transmission one_gene two_genes mother);
               from_father := from_father st |}
        | None => st
        end in
      let st :=
        match father r with
        | Some father =>
            {| probabilites := probabilites st;
               from_mother := from_mother st;
               from_father := Some (transmission one_gene two_genes father) |}
        | None => st
        end in
      fm ← read (from_mother st);
      ff ← read (from_father st);
      let person_prob := person_prob * inherited person_genes fm ff in
      Ok {| probabilites :=
              probabilites st
                ++ [person_prob * PROBS_trait person_genes person_trait];
            from_mother := from_mother st;
            from_father := from_father st |}
    else
      let person_prob :=
        person_prob * (PROBS_gene person_genes
                       * PROBS_trait person_genes person_trait) in
      Ok {| probabilites := probabilites st ++ [person_prob];
            from_mother := from_mother st;
            from_father := from_father st |}
  else Ok st.

Definition joint_probability (people : list (string * Person))
    (one_gene two_genes have_trait : gset string) : result Q :=
  st ← foldM (joint_probability_person people one_gene two_genes have_trait)
         {| probabilites := []; from_mother := None; from_father := None |}
         (keys people);
  (* join_prob = 1; for prob in probabilites: join_prob *= prob *)
  Ok (fold_left Qmult (probabilites st) 1).

(** ** [update] *)

(** [probabilities[person]]: the "gene" and the "trait" dictionaries. *)
Record marginals : Type := {
  gene_2 : Q;
  gene_1 : Q;
  gene_0 : Q;
  trait_True : Q;
  trait_False : Q
}.

Definition gene_of (d : marginals) (g : gene_count) : Q :=
  match g with
  | G2 => gene_2 d
  | G1 => gene_1 d
  | G0 => gene_0 d
  end.

Definition trait_of (d : marginals) (t : bool) : Q :=
  if t then trait_True d else trait_False d.

Definition add_gene (g : gene_count) (p : Q) (d : marginals) : marginals :=
  match g with
  | G2 => {| gene_2 := gene_2 d + p; gene_1 := gene_1 d; gene_0 := gene_0 d;
             trait_True := trait_True d; trait_False := trait_False d |}
  | G1 => {| gene_2 := gene_2 d; gene_1 := gene_1 d + p; gene_0 := gene_0 d;
             trait_True := trait_True d; trait_False := trait_False d |}
  | G0 => {| gene_2 := gene_2 d; gene_1 := gene_1 d; gene_0 := gene_0 d + p;
             trait_True := trait_True d; trait_False := trait_False d |}
  end.

Definition add_trait (t : bool) (p : Q) (d : marginals) : marginals :=
  if t then
    {| gene_2 := gene_2 d; gene_1 := gene_1 d; gene_0 := gene_0 d;
       trait_True := trait_True d + p; trait_False := trait_False d |}
  else
    {| gene_2 := gene_2 d; gene_1 := gene_1 d; gene_0 := gene_0 d;
       trait_True := trait_True d; trait_False := trait_False d + p |}.

(** The body of [for person in probabilities]: the buckets of the current
    person are updated in place. *)
Definition update_person (one_gene two_genes have_trait : gset string) (p : Q)
    (person : string) (d : marginals) : marginals :=
  let d :=
    if decide (person ∈ one_gene) then add_gene G1 p d
    else if decide (person ∈ two_genes) then add_gene G2 p d
    else add_gene G0 p d in
  if decide (person ∈ have_trait) then add_trait true p d
  else if decide (person ∉ have_trait) then add_trait false p d
  else d.

(** The loop visits every key once and changes the value stored under it, so
    the dictionary after the call is the old one with every value replaced. *)
Definition update (probabilities : list (string * marginals))
    (one_gene two_genes have_trait : gset string) (p : Q)
    : list (string * marginals) :=
  map (λ kv, (kv.1, update_person one_gene two_genes have_trait p kv.1 kv.2))
      probabilities.

(** ** [normalize] *)

(** [x / y] on numbers. *)
Definition divide (x y : Q) : result Q :=
  if Qeq_bool y 0 then Raise ZeroDivisionError else Ok (x / y).

Definition normalize_person (d : marginals) : result marginals :=
  let trait_true := trait_True d in
  let trait_false := trait_False d in
  let summary := trait_false + trait_true in
  d ← (if negb (Qeq_bool summary 1) then
         t ← divide (trait_True d) summary;
         f ← divide (trait_False d) summary;
         Ok {| gene_2 := gene_2 d; gene_1 := gene_1 d; gene_0 := gene_0 d;
               trait_True := t; trait_False := f |}
       else Ok d);
  let no_genes := gene_0 d in
  let one_gene := gene_1 d in
  let two_genes := gene_2 d in
  let summary_genes := no_genes + one_gene + two_genes in
  if negb (Qeq_bool summary_genes 1) then
    g0 ← divide (gene_0 d) summary_genes;
    g1 ← divide (gene_1 d) summary_genes;
    g2 ← divide (gene_2 d) summary_genes;
    Ok {| gene_2 := g2; gene_1 := g1; gene_0 := g0;
          trait_True := trait_True d; trait_False := trait_False d |}
  else Ok d.

(** Persons are normalised in the order of the dictionary; the first division
    by zero ends the call. *)
Definition normalize (probabilities : list (string * marginals))
    : result (list (string * marginals)) :=
  forM (λ kv, d ← normalize_person kv.2; Ok (kv.1, d)) probabilities.

(** ** The driver [main], from the loaded [people] on *)

Definition zero_marginals : marginals :=
  {| gene_2 := 0; gene_1 := 0; gene_0 := 0; trait_True := 0; trait_False := 0 |}.

(** Lines 48-61. *)
Definition initial (people : list (string * Person)) : list (string * marginals) :=
  map (λ person, (person, zero_marginals)) (keys people).

(** The generator inside [any(...)], lines 68-72; [any] stops at the first
    true value. *)
Fixpoint any_conflict (people : list (string * Person)) (have_trait : gset string)
    (names : list string) : result bool :=
  match names with
  | [] => Ok false
  | person :: names' =>
      r ← getitem people person;
      if match trait r with
         | Some b => negb (eqb b (bool_decide (person ∈ have_trait)))
         | None => false
         end
      then Ok true
      else any_conflict people have_trait names'
  end.

Definition fails_evidence (people : list (string * Person)) (names : gset string)
    (have_trait : gset string) : result bool :=
  any_conflict people have_trait (elements names).

(** Lines 81-82. *)
Definition accumulate (people : list (string * Person))
    (probabilities : list (string * marginals))
    (h : gset string * gset string * gset string)
    : result (list (string * marginals)) :=
  let '(have_trait, one_gene, two_genes) := h in
  p ← joint_probability people one_gene two_genes have_trait;
  Ok (update probabilities one_gene two_genes have_trait p).

(** Lines 64-82. *)
Definition main_loop (people : list (string * Person))
    (probabilities : list (string * marginals))
    : result (list (string * marginals)) :=
  let names : gset string := list_to_set (keys people) in
  foldM (λ probabilities have_trait,
      fails ← fails_evidence people names have_trait;
      if (fails : bool) then Ok probabilities
      else
        foldM (λ probabilities one_gene,
            foldM (λ probabilities two_genes,
                accumulate people probabilities (have_trait, one_gene, two_genes))
              probabilities (powerset (names ∖ one_gene)))
          probabilities (powerset names))
    probabilities (powerset names).

Definition main (people : list (string * Person))
    : result (list (string * marginals)) :=
  probabilities ← main_loop people (initial people);
  normalize probabilities.

(** ** Derived descriptions used in the statements *)

(** The number one iteration of [joint_probability] appends for [person]
    when the record of [person] is [r] and both or neither parent is
    recorded. *)
Definition person_factor (one_gene two_genes have_trait : gset string)
    (person : string) (r : Person) : Q :=
  let person_genes := person_genes_of one_gene two_genes person in
  let person_trait := bool_decide (person ∈ have_trait) in
  match mother r, father r with
  | Some mother, Some father =>
      1 * inherited person_genes (transmission one_gene two_genes mother)
                                 (transmission one_gene two_genes father)
        * PROBS_trait person_genes person_trait
  | _, _ => 1 * (PROBS_gene person_genes * PROBS_trait person_genes person_trait)
  end.

(** What the iteration for [person] appends to [probabilites]. *)
Definition appended (people : list (string * Person))
    (one_gene two_genes have_trait : gset string) (person : string) : list Q :=
  if decide (person ∉ one_gene ∨ person ∉ two_genes) then
    match getitem people person with
    | Ok r => [person_factor one_gene two_genes have_trait person r]
    | Raise _ => []
    end
  else [].

(** The record of a person with the two parent references exchanged. *)
Definition swap_parents (r : Person) : Person :=
  {| name := name r; mother := father r; father := mother r; trait := trait r |}.

(** The population in which [child]'s mother is listed as father and the
    father as mother; every other record is unchanged. *)
Definition swap_parents_of (child : string) (people : list (string * Person))
    : list (string * Person) :=
  map (λ kv, if decide (kv.1 = child) then (kv.1, swap_parents kv.2) else kv)
      people.

(** The gene bucket [update] adds to for [person] (it tests [one_gene]
    first). *)
Definition updated_gene (one_gene two_genes : gset string) (person : string)
    : gene_count :=
  if decide (person ∈ one_gene) then G1
  else if decide (person ∈ two_genes) then G2
  else G0.

(** A sequence of calls [update(probabilities, one_gene, two_genes,
    have_trait, p)], oldest first. *)
Definition updates (calls : list (gset string * gset string * gset string * Q))
    (probabilities : list (string * marginals)) : list (string * marginals) :=
  fold_left (λ probabilities c,
      let '(one_gene, two_genes, have_trait, p) := c in
      update probabilities one_gene two_genes have_trait p)
    calls probabilities.

Definition gene_mass (d : marginals) : Q := gene_0 d + gene_1 d + gene_2 d.
Definition trait_mass (d : marginals) : Q := trait_True d + trait_False d.

#[global] Instance gene_count_eq_dec : EqDecision gene_count.
Proof. solve_decision. Defined.

(** All subsequences of a list, by the usual recursion; [all_combinations]
    lists the same subsequences in another order. *)
Fixpoint sublists {A : Type} (l : list A) : list (list A) :=
  match l with
  | [] => [[]]
  | x :: l' => map (cons x) (sublists l') ++ sublists l'
  end.

(** The pairs [(one_gene, two_genes)] of the two inner loops of [main]. *)
Definition gene_pairs (names : gset string) : list (gset string * gset string) :=
  flat_map (λ one_gene,
      map (λ two_genes, (one_gene, two_genes)) (powerset (names ∖ one_gene)))
    (powerset names).

(** The triples the three nested loops of [main] run through when the
    evidence filter is left out. *)
Definition candidates (names : gset string)
    : list (gset string * gset string * gset string) :=
  flat_map (λ have_trait,
      map (λ ot : gset string * gset string, (have_trait, ot.1, ot.2))
          (gene_pairs names))
    (powerset names).

(** The triples for which lines 81-82 are reached: the trait sets that fail
    the evidence are skipped together with all their gene pairs. *)
Definition evaluated (people : list (string * Person))
    : list (gset string * gset string * gset string) :=
  let names : gset string := list_to_set (keys people) in
  flat_map (λ have_trait,
      match fails_evidence people names have_trait with
      | Ok false =>
          map (λ ot : gset string * gset string, (have_trait, ot.1, ot.2))
              (gene_pairs names)
      | _ => []
      end)
    (powerset names).

(** The product of a list of numbers. *)
Definition Qprod (l : list Q) : Q := foldr Qmult 1 l.

(** ** The claim's own reading of the per-person probability (C1) *)

(** "a parent transmitting with probability 0.5 if in one_gene, 1-0.01 if in
    two_genes, and 0.01 otherwise" *)
Definition spec_transmit (one_gene two_genes : gset string) (parent : string) : Q :=
  if decide (parent ∈ one_gene) then 0.5
  else if decide (parent ∈ two_genes) then 1 - 0.01
  else 0.01.

(** "g is 2 if the person is in two_genes, 1 if in one_gene, else 0" *)
Definition spec_gene_count (one_gene two_genes : gset string) (person : string)
    : gene_count :=
  if decide (person ∈ two_genes) then G2
  else if decide (person ∈ one_gene) then G1
  else G0.

(** "P(gene=g) is the Gene Prior Table entry when the person has no parents,
    and otherwise is derived from the parents' transmission probabilities" *)
Definition spec_gene_probability (one_gene two_genes : gset string)
    (person : string) (r : Person) : Q :=
  let g := spec_gene_count one_gene two_genes person in
  match mother r, father r with
  | None, None => PROBS_gene g
  | m, f =>
      let pM := from_option (spec_transmit one_gene two_genes) 0 m in
      let pF := from_option (spec_transmit one_gene two_genes) 0 f in
      match g with
      | G2 => pM * pF
      | G1 => pM * (1 - pF) + (1 - pM) * pF
      | G0 => (1 - pM) * (1 - pF)
      end
  end.

(** "P(gene=g) * P(trait=t | gene=g)", with t the membership in have_trait *)
Definition spec_person_probability (one_gene two_genes have_trait : gset string)
    (person : string) (r : Person) : Q :=
  spec_gene_probability one_gene two_genes person r
  * PROBS_trait (spec_gene_count one_gene two_genes person)
                (bool_decide (person ∈ have_trait)).

(** A sample population: a child with both parents, who have no recorded
    parents themselves. *)
Definition sample_family : list (string * Person) :=
  [("Harry"%string,
    {| name := "Harry"; mother := Some "Lily"%string;
       father := Some "James"%string; trait := None |});
   ("James"%string,
    {| name := "James"; mother := None; father := None; trait := Some true |});
   ("Lily"%string,
    {| name := "Lily"; mother := None; father := None; trait := Some false |})].

(** Accumulated masses 2 : 1 : 1 for two, one and no copies, and 3 : 1 for
    trait and no trait. *)
Definition sample_masses : list (string * marginals) :=
  [("Harry"%string,
    {| gene_2 := 2; gene_1 := 1; gene_0 := 1;
       trait_True := 3; trait_False := 1 |})].

(** ** [load_data], from the rows of the file on *)

(** A row as [csv.DictReader] yields it: the fields [name], [mother],
    [father] and [trait]. *)
Record Row : Type := {
  row_name : string;
  row_mother : string;
  row_father : string;
  row_trait : string
}.

(** [d[k] = v]: the value of an existing key is replaced where the key
    stands, a new key goes to the end. *)
Fixpoint setitem {V : Type} (d : list (string * V)) (k : string) (v : V)
    : list (string * V) :=
  match d with
  | [] => [(k, v)]
  | (k', v') :: d' =>
      if decide (k' = k) then (k', v) :: d' else (k', v') :: setitem d' k v
  end.

(** [s or None] *)
Definition or_None (s : string) : option string :=
  if decide (s = ""%string) then None else Some s.

(** Lines 109-115: the record stored for a row. *)
Definition record_of_row (row : Row) : Person :=
  let name := row_name row in
  {| name := name;
     mother := or_None (row_mother row);
     father := or_None (row_father row);
     trait := if decide (row_trait row = "1"%string) then Some true
              else if decide (row_trait row = "0"%string) then Some false
              else None |}.

(** Lines 104-116, with the rows read from the file as argument. *)
Definition load_data (rows : list Row) : list (string * Person) :=
  fold_left (λ data row, setitem data (row_name row) (record_of_row row))
            rows [].

(** The last row of the file that carries the name [k]. *)
Definition last_row (rows : list Row) (k : string) : option Row :=
  find (λ row, bool_decide (row_name row = k)) (reverse rows).

(** Whether the iteration of [joint_probability] for [person] enters the
    branch of line 151, where the transmission probabilities are read. *)
Definition reads_transmission (people : list (string * Person))
    (one_gene two_genes : gset string) (person : string) : bool :=
  bool_decide (person ∉ one_gene ∨ person ∉ two_genes)
  && match getitem people person with
     | Ok r => bool_decide (mother r ≠ None ∨ father r ≠ None)
     | Raise _ => false
     end.

(** The sum of a list of numbers. *)
Definition Qsum (l : list Q) : Q := foldr Qplus 0 l.

(** The [p] of the calls in [calls] that add to the gene bucket [g] of
    [person], and of those that add to the trait bucket [b]. *)
Definition gene_shares (calls : list (gset string * gset string * gset string * Q))
    (person : string) (g : gene_count) : list Q :=
  map snd (filter (λ c, updated_gene c.1.1.1 c.1.1.2 person = g) calls).

Definition trait_shares (calls : list (gset string * gset string * gset string * Q))
    (person : string) (b : bool) : list Q :=
  map snd (filter (λ c, bool_decide (person ∈ c.1.2) = b) calls).

(** The joint probability of a triple [(have_trait, one_gene, two_genes)] of
    the driver's enumeration (0 should the evaluation raise). *)
Definition joint_value (people : list (string * Person))
    (h : gset string * gset string * gset string) : Q :=
  match joint_probability people h.1.2 h.2 h.1.1 with
  | Ok p => p
  | Raise _ => 0
  end.

(** The calls of [update] the driver makes, in order. *)
Definition calls_of (people : list (string * Person))
    : list (gset string * gset string * gset string * Q) :=
  map (λ h, (h.1.2, h.2, h.1.1, joint_value people h)) (evaluated people).

(** The observation recorded for [person], if any. *)
Definition observed (people : list (string * Person)) (person : string)
    : option bool :=
  match getitem people person with
  | Ok r => trait r
  | Raise _ => None
  end.

(** The persons whose trait is observed to be present. *)
Definition observed_true (people : list (string * Person)) : gset string :=
  list_to_set (filter (λ person, observed people person = Some true)
                      (keys people)).


#[global] Instance exn_eq_dec : EqDecision exn.
Proof. solve_decision. Defined.

#[global] Instance result_eq_dec {A : Type} `{EqDecision A} : EqDecision (result A).
Proof. solve_decision. Defined.


(** The rows of a file for the sample family. *)
Definition sample_rows : list Row :=
  [{| row_name := "Harry"; row_mother := "Lily"; row_father := "James";
      row_trait := "" |};
   {| row_name := "James"; row_mother := ""; row_father := "";
      row_trait := "1" |};
   {| row_name := "Lily"; row_mother := ""; row_father := "";
      row_trait := "0" |}].

(** ** The numeric functions in binary64

    The same functions with Python's [float] as IEEE 754 binary64 and its
    operations rounded to nearest; the integers [0] and [1] the program
    starts from convert exactly.  The sets, the dictionaries, the result
    monad and [fails_evidence] are shared with the definitions above. *)
Module B64.
Import PrimFloat.
Local Open Scope float_scope.

Definition PROBS_gene (g : gene_count) : float :=
  match g with
  | G2 => 0.01
  | G1 => 0.03
  | G0 => 0.96
  end.

Definition PROBS_trait (g : gene_count) (t : bool) : float :=
  match g, t with
  | G2, true => 0.65
  | G2, false => 0.35
  | G1, true => 0.56
  | G1, false => 0.44
  | G0, true => 0.01
  | G0, false => 0.99
  end.

Definition PROBS_mutation : float := 0.01.

Record locals : Type := {
  probabilites : list float;
  from_mother : option float;
  from_father : option float
}.

Definition read (v : option float) : result float :=
  match v with
  | Some x => Ok x
  | None => Raise UnboundLocalError
  end.

Definition transmission (one_gene two_genes : gset string) (parent : string)
    : float :=
  if decide (parent ∈ one_gene) then 0.5
  else if decide (parent ∈ two_genes) then 1 - PROBS_mutation
  else PROBS_mutation.

Definition inherited (person_genes : gene_count) (from_mother from_father : float)
    : float :=
  match person_genes with
  | G2 => from_mother * from_father
  | G1 => (1 - from_mother) * from_father + (1 - from_father) * from_mother
  | G0 => (1 - from_mother) * (1 - from_father)
  end.

Definition joint_probability_person (people : list (string * Person))
    (one_gene two_genes have_trait : gset string)
    (st : locals) (person : string) : result locals :=
  let person_prob := 1 in
  let person_genes := person_genes_of one_gene two_genes person in
  let person_trait := bool_decide (person ∈ have_trait) in
  if decide (person ∉ one_gene ∨ person ∉ two_genes) then
    r ← getitem people person;
    if decide (mother r ≠ None ∨ father r ≠ None) then
      let st :=
        match mother r with
        | Some mother =>
            {| probabilites := probabilites st;
               from_mother := Some (transmission one_gene two_genes mother);
               from_father := from_father st |}
        | None => st
        end in
      let st :=
        match father r with
        | Some father =>
            {| probabilites := probabilites st;
               from_mother := from_mother st;
               from_father := Some (transmission one_gene two_genes father) |}
        | None => st
        end in
      fm ← read (from_mother st);
      ff ← read (from_father st);
      let person_prob := person_prob * inherited person_genes fm ff in
      Ok {| probabilites :=
              probabilites st
                ++ [person_prob * PROBS_trait person_genes person_trait];
            from_mother := from_mother st;
            from_father := from_father st |}
    else
      let person_prob :=
        person_prob * (PROBS_gene person_genes
                       * PROBS_trait person_genes person_trait) in
      Ok {| probabilites := probabilites st ++ [person_prob];
            from_mother := from_mother st;
            from_father := from_father st |}
  else Ok st.

Definition joint_probability (people : list (string * Person))
    (one_gene two_genes have_trait : gset string) : result float :=
  st ← foldM (joint_probability_person people one_gene two_genes have_trait)
         {| probabilites := []; from_mother := None; from_father := None |}
         (keys people);
  Ok (fold_left mul (probabilites st) 1).

Record marginals : Type := {
  gene_2 : float;
  gene_1 : float;
  gene_0 : float;
  trait_True : float;
  trait_False : float
}.

Definition gene_of (d : marginals) (g : gene_count) : float :=
  match g with
  | G2 => gene_2 d
  | G1 => gene_1 d
  | G0 => gene_0 d
  end.

Definition trait_of (d : marginals) (t : bool) : float :=
  if t then trait_True d else trait_False d.

Definition add_gene (g : gene_count) (p : float) (d : marginals) : marginals :=
  match g with
  | G2 => {| gene_2 := gene_2 d + p; gene_1 := gene_1 d; gene_0 := gene_0 d;
             trait_True := trait_True d; trait_False := trait_False d |}
  | G1 => {| gene_2 := gene_2 d; gene_1 := gene_1 d + p; gene_0 := gene_0 d;
             trait_True := trait_True d; trait_False := trait_False d |}
  | G0 => {| gene_2 := gene_2 d; gene_1 := gene_1 d; gene_0 := gene_0 d + p;
             trait_True := trait_True d; trait_False := trait_False d |}
  end.

Definition add_trait (t : bool) (p : float) (d : marginals) : marginals :=
  if t then
    {| gene_2 := gene_2 d; gene_1 := gene_1 d; gene_0 := gene_0 d;
       trait_True := trait_True d + p; trait_False := trait_False d |}
  else
    {| gene_2 := gene_2 d; gene_1 := gene_1 d; gene_0 := gene_0 d;
       trait_True := trait_True d; trait_False := trait_False d + p |}.

Definition update_person (one_gene two_genes have_trait : gset string) (p : float)
    (person : string) (d : marginals) : marginals :=
  let d :=
    if decide (person ∈ one_gene) then add_gene G1 p d
    else if decide (person ∈ two_genes) then add_gene G2 p d
    else add_gene G0 p d in
  if decide (person ∈ have_trait) then add_trait true p d
  else if decide (person ∉ have_trait) then add_trait false p d
  else d.

Definition update (probabilities : list (string * marginals))
    (one_gene two_genes have_trait : gset string) (p : float)
    : list (string * marginals) :=
  map (λ kv, (kv.1, update_person one_gene two_genes have_trait p kv.1 kv.2))
      probabilities.

(** [x / y]: Python raises when the divisor compares equal to zero. *)
Definition divide (x y : float) : result float :=
  if y =? 0 then Raise ZeroDivisionError else Ok (x / y).

Definition normalize_person (d : marginals) : result marginals :=
  let trait_true := trait_True d in
  let trait_false := trait_False d in
  let summary := trait_false + trait_true in
  d ← (if negb (summary =? 1) then
         t ← divide (trait_True d) summary;
         f ← divide (trait_False d) summary;
         Ok {| gene_2 := gene_2 d; gene_1 := gene_1 d; gene_0 := gene_0 d;
               trait_True := t; trait_False := f |}
       else Ok d);
  let no_genes := gene_0 d in
  let one_gene := gene_1 d in
  let two_genes := gene_2 d in
  let summary_genes := no_genes + one_gene + two_genes in
  if negb (summary_genes =? 1) then
    g0 ← divide (gene_0 d) summary_genes;
    g1 ← divide (gene_1 d) summary_genes;
    g2 ← divide (gene_2 d) summary_genes;
    Ok {| gene_2 := g2; gene_1 := g1; gene_0 := g0;
          trait_True := trait_True d; trait_False := trait_False d |}
  else Ok d.

Definition normalize (probabilities : list (string * marginals))
    : result (list (string * marginals)) :=
  forM (λ kv, d ← normalize_person kv.2; Ok (kv.1, d)) probabilities.

Definition zero_marginals : marginals :=
  {| gene_2 := 0; gene_1 := 0; gene_0 := 0; trait_True := 0; trait_False := 0 |}.

Definition initial (people : list (string * Person)) : list (string * marginals) :=
  map (λ person, (person, zero_marginals)) (keys people).

Definition accumulate (people : list (string * Person))
    (probabilities : list (string * marginals))
    (h : gset string * gset string * gset string)
    : result (list (string * marginals)) :=
  let '(have_trait, one_gene, two_genes) := h in
  p ← joint_probability people one_gene two_genes have_trait;
  Ok (update probabilities one_gene two_genes have_trait p).

Definition main_loop (people : list (string * Person))
    (probabilities : list (string * marginals))
    : result (list (string * marginals)) :=
  let names : gset string := list_to_set (keys people) in
  foldM (λ probabilities have_trait,
      fails ← fails_evidence people names have_trait;
      if (fails : bool) then Ok probabilities
      else
        foldM (λ probabilities one_gene,
            foldM (λ probabilities two_genes,
                accumulate people probabilities (have_trait, one_gene, two_genes))
              probabilities (powerset (names ∖ one_gene)))
          probabilities (powerset names))
    probabilities (powerset names).

Definition main (people : list (string * Person))
    : result (list (string * marginals)) :=
  probabilities ← main_loop people (initial people);
  normalize probabilities.

(** A sequence of calls of [update], oldest first. *)
Definition updates (calls : list (gset string * gset string * gset string * float))
    (probabilities : list (string * marginals)) : list (string * marginals) :=
  fold_left (λ probabilities c,
      let '(one_gene, two_genes, have_trait, p) := c in
      update probabilities one_gene two_genes have_trait p)
    calls probabilities.

(** The value [joint_probability] returns for a triple
    [(have_trait, one_gene, two_genes)], and the calls of [update] the
    driver makes, in order. *)
Definition joint_value (people : list (string * Person))
    (h : gset string * gset string * gset string) : float :=
  match joint_probability people h.1.2 h.2 h.1.1 with
  | Ok p => p
  | Raise _ => 0
  end.

Definition calls_of (people : list (string * Person))
    : list (gset string * gset string * gset string * float) :=
  map (λ h, (h.1.2, h.2, h.1.1, joint_value people h)) (evaluated people).

End B64.

(** A person without parents and without observed trait, alone. *)
Definition lone_person : list (string * Person) :=
  [("Harry"%string,
    {| name := "Harry"; mother := None; father := None; trait := None |})].

(** Two parents without recorded parents and [n] children of theirs. *)
Definition child (i : nat) : string := "child" +:+ pretty i.

Definition child_record (i : nat) : Person :=
  {| name := child i; mother := Some "Lily"%string;
     father := Some "James"%string; trait := None |}.

Definition large_family (n : nat) : list (string * Person) :=
  [("Lily"%string,
    {| name := "Lily"; mother := None; father := None; trait := None |});
   ("James"%string,
    {| name := "James"; mother := None; father := None; trait := None |})]
  ++ map (λ i, (child i, child_record i)) (seq 0 n).

Definition children (n : nat) : gset string :=
  list_to_set (map child (seq 0 n)).

(** ** Basic facts: the monad, loops and dictionaries *)

Lemma foldM_app {S A : Type} (body : S → A → result S) (s : S) (l1 l2 : list A) :
  foldM body s (l1 ++ l2) = (foldM body s l1 ≫= λ s', foldM body s' l2).
Proof.
  revert s. induction l1 as [|a l1 IH]; intros s; simpl; [done|].
  destruct (body s a) as [s'|e]; simpl; [apply IH | done].
Qed.

Lemma foldM_ext {S A : Type} (f g : S → A → result S) (s : S) (l : list A) :
  (∀ s a, a ∈ l → f s a = g s a) → foldM f s l = foldM g s l.
Proof.
  revert s. induction l as [|a l IH]; intros s Hfg; simpl; [done|].
  rewrite Hfg by left. destruct (g s a) as [s'|e]; simpl; [|done].
  apply IH. intros s0 a0 Ha0. apply Hfg. by right.
Qed.

Lemma getitem_elem {V : Type} (d : list (string * V)) (k : string) (v : V) :
  getitem d k = Ok v → (k, v) ∈ d.
Proof.
  induction d as [|[k' v'] d IH]; simpl; [done|].
  case_decide as Hk.
  - intros [= ->]. subst. left.
  - intros Hd. right. by apply IH.
Qed.

Lemma getitem_keys {V : Type} (d : list (string * V)) (k : string) :
  k ∈ keys d → ∃ v, getitem d k = Ok v.
Proof.
  induction d as [|[k' v'] d IH]; simpl.
  - by intros ?%elem_of_nil.
  - intros [->|Hk]%elem_of_cons; case_decide; eauto; done.
Qed.

Lemma getitem_NoDup {V : Type} (d : list (string * V)) (k : string) (v : V) :
  NoDup (keys d) → (k, v) ∈ d → getitem d k = Ok v.
Proof.
  induction d as [|[k' v'] d IH]; simpl.
  - by intros _ ?%elem_of_nil.
  - intros [Hk' Hd]%NoDup_cons [[= -> ->]|Hin]%elem_of_cons.
    + by rewrite decide_True.
    + rewrite decide_False; [by apply IH|].
      intros ->. apply Hk'. unfold keys. apply list_elem_of_In, in_map_iff.
      exists (k, v). split; [done|]. by apply list_elem_of_In.
Qed.

Lemma well_formed_getitem people person r :
  well_formed people → getitem people person = Ok r → parents_paired r = true.
Proof.
  intros Hwf Hr%getitem_elem.
  unfold well_formed in Hwf. rewrite Forall_forall in Hwf.
  exact (Hwf _ Hr).
Qed.

(** ** [joint_probability] on well-formed populations *)

Lemma joint_probability_person_paired people one_gene two_genes have_trait st person :
  (∀ r, getitem people person = Ok r → parents_paired r = true) →
  is_Some (match getitem people person with Ok r => Some r | Raise _ => None end) →
  ∃ fm ff,
    joint_probability_person people one_gene two_genes have_trait st person
    = Ok {| probabilites :=
              probabilites st
                ++ appended people one_gene two_genes have_trait person;
            from_mother := fm; from_father := ff |}.
Proof.
  intros Hpair [r Hr].
  destruct (getitem people person) as [r'|] eqn:Hget; [|done].
  injection Hr as ->. specialize (Hpair r eq_refl).
  unfold joint_probability_person, appended, person_factor. rewrite Hget.
  destruct st as [ps fm0 ff0]. simpl.
  case_decide as Hguard.
  - unfold parents_paired in Hpair.
    destruct (mother r) as [m|], (father r) as [f|]; try done; simpl.
    + eauto.
    + eauto.
  - rewrite app_nil_r. eauto.
Qed.

Lemma joint_probability_loop people one_gene two_genes have_trait ks st :
  well_formed people → ks ⊆ keys people →
  ∃ fm ff,
    foldM (joint_probability_person people one_gene two_genes have_trait) st ks
    = Ok {| probabilites :=
              probabilites st
                ++ flat_map (appended people one_gene two_genes have_trait) ks;
            from_mother := fm; from_father := ff |}.
Proof.
  intros Hwf. revert st. induction ks as [|k ks IH]; intros st Hks; simpl.
  - rewrite app_nil_r. destruct st; simpl; eauto.
  - destruct (getitem_keys people k) as [r Hr]; [set_solver|].
    destruct (joint_probability_person_paired people one_gene two_genes
                have_trait st k) as (fm & ff & ->).
    { intros r' Hr'. by eapply well_formed_getitem. }
    { rewrite Hr. eauto. }
    simpl. destruct (IH {| probabilites :=
                             probabilites st
                               ++ appended people one_gene two_genes have_trait k;
                           from_mother := fm; from_father := ff |})
      as (fm' & ff' & ->); [set_solver|].
    simpl. rewrite <- app_assoc. eauto.
Qed.

Lemma joint_probability_well_formed people one_gene two_genes have_trait :
  well_formed people →
  joint_probability people one_gene two_genes have_trait
  = Ok (fold_left Qmult
          (flat_map (appended people one_gene two_genes have_trait) (keys people))
          1).
Proof.
  intros Hwf. unfold joint_probability.
  destruct (joint_probability_loop people one_gene two_genes have_trait
              (keys people)
              {| probabilites := []; from_mother := None; from_father := None |})
    as (fm & ff & ->); [done|done|].
  reflexivity.
Qed.

(** A record with exactly one parent reads a transmission probability that
    was never assigned: the first person of the loop raises. *)
Example joint_probability_single_parent_raises :
  joint_probability
    [("Harry"%string,
      {| name := "Harry"; mother := Some "Lily"%string; father := None;
         trait := None |})] ∅ ∅ ∅
  = Raise UnboundLocalError.
Proof. reflexivity. Qed.

(** After a person with two parents, a later record with one parent silently
    reuses the earlier person's value: Ron, whose father is not recorded, is
    evaluated as if his father were Harry's. *)
Example joint_probability_single_parent_stale :
  joint_probability
    [("Harry"%string,
      {| name := "Harry"; mother := Some "Lily"%string;
         father := Some "James"%string; trait := None |});
     ("Ron"%string,
      {| name := "Ron"; mother := Some "Molly"%string; father := None;
         trait := None |})] {["James"%string]} ∅ ∅
  = joint_probability
      [("Harry"%string,
        {| name := "Harry"; mother := Some "Lily"%string;
           father := Some "James"%string; trait := None |});
       ("Ron"%string,
        {| name := "Ron"; mother := Some "Molly"%string;
           father := Some "James"%string; trait := None |})]
      {["James"%string]} ∅ ∅.
Proof. vm_compute. reflexivity. Qed.

(** ** Products of rationals *)

Lemma fold_left_Qmult (l : list Q) (a : Q) : fold_left Qmult l a == a * Qprod l.
Proof.
  revert a. induction l as [|x l IH]; intros a; simpl.
  - ring.
  - rewrite IH. ring.
Qed.

Lemma Qprod_Forall2 (l1 l2 : list Q) : Forall2 Qeq l1 l2 → Qprod l1 == Qprod l2.
Proof.
  induction 1 as [|x y l1 l2 Hxy _ IH]; simpl; [reflexivity|].
  by rewrite Hxy, IH.
Qed.

Lemma Qmult_comm_L (a b : Q) : a * b = b * a.
Proof. unfold Qmult. f_equal; [apply Z.mul_comm | apply Pos.mul_comm]. Qed.

Lemma Qplus_comm_L (a b : Q) : a + b = b + a.
Proof. unfold Qplus. f_equal; [apply Z.add_comm | apply Pos.mul_comm]. Qed.

Lemma inherited_comm_L (g : gene_count) (a b : Q) : inherited g a b = inherited g b a.
Proof.
  destruct g; simpl.
  - apply Qmult_comm_L.
  - apply Qplus_comm_L.
  - apply Qmult_comm_L.
Qed.

Lemma person_factor_spec one_gene two_genes have_trait person r :
  parents_paired r = true →
  person_factor one_gene two_genes have_trait person r
  == spec_person_probability one_gene two_genes have_trait person r.
Proof.
  unfold parents_paired, person_factor, spec_person_probability,
    spec_gene_probability, spec_gene_count, person_genes_of.
  destruct (mother r) as [m|], (father r) as [f|]; try done; intros _; simpl.
  - replace (spec_transmit one_gene two_genes m)
      with (transmission one_gene two_genes m) by reflexivity.
    replace (spec_transmit one_gene two_genes f)
      with (transmission one_gene two_genes f) by reflexivity.
    repeat case_decide; simpl; ring.
  - ring.
Qed.

Lemma appended_items people one_gene two_genes have_trait l :
  one_gene ## two_genes →
  (∀ kv, kv ∈ l → getitem people kv.1 = Ok kv.2) →
  flat_map (appended people one_gene two_genes have_trait) (keys l)
  = map (λ kv, person_factor one_gene two_genes have_trait kv.1 kv.2) l.
Proof.
  intros Hdisj. induction l as [|[k v] l IH]; intros Hall; simpl; [done|].
  rewrite IH by (intros kv Hkv; apply Hall; by right).
  unfold appended at 1. rewrite decide_True.
  - pose proof (Hall (k, v) ltac:(left)) as Hk. simpl in Hk.
    rewrite Hk. reflexivity.
  - destruct (decide (k ∈ one_gene)) as [Hk|Hk]; [right|by left].
    intros Hk'. exact (Hdisj k Hk Hk').
Qed.

Lemma appended_entries people one_gene two_genes have_trait :
  NoDup (keys people) → one_gene ## two_genes →
  flat_map (appended people one_gene two_genes have_trait) (keys people)
  = map (λ kv, person_factor one_gene two_genes have_trait kv.1 kv.2) people.
Proof.
  intros Hnd Hdisj. apply appended_items; [done|].
  intros [k v] Hkv. by apply getitem_NoDup.
Qed.

(** ** Exchanging mother and father *)

Lemma keys_swap_parents_of child people :
  keys (swap_parents_of child people) = keys people.
Proof.
  unfold keys, swap_parents_of. induction people as [|[k r] people IH]; simpl;
    [done|].
  rewrite IH. by case_decide.
Qed.

Lemma getitem_swap_parents_of child people k :
  getitem (swap_parents_of child people) k
  = match getitem people k with
    | Ok r => Ok (if decide (k = child) then swap_parents r else r)
    | Raise e => Raise e
    end.
Proof.
  induction people as [|[k' r] people IH]; simpl; [done|].
  destruct (decide (k' = child)) as [->|Hne]; simpl.
  - destruct (decide (child = k)) as [<-|Hk]; [|done].
    by rewrite decide_True.
  - destruct (decide (k' = k)) as [<-|Hk]; [|done].
    by rewrite decide_False.
Qed.

Lemma parents_paired_swap r : parents_paired (swap_parents r) = parents_paired r.
Proof. unfold parents_paired. simpl. by destruct (mother r), (father r). Qed.

Lemma well_formed_swap_parents_of child people :
  well_formed people → well_formed (swap_parents_of child people).
Proof.
  unfold well_formed, swap_parents_of. intros Hwf. apply Forall_fmap.
  eapply Forall_impl; [exact Hwf|]. intros [k r] Hr. simpl in *.
  case_decide; simpl; [by rewrite parents_paired_swap|done].
Qed.

Lemma person_factor_swap one_gene two_genes have_trait person r :
  person_factor one_gene two_genes have_trait person (swap_parents r)
  = person_factor one_gene two_genes have_trait person r.
Proof.
  unfold person_factor. simpl.
  destruct (mother r) as [m|], (father r) as [f|]; try done.
  by rewrite inherited_comm_L.
Qed.

Lemma appended_swap child people one_gene two_genes have_trait person :
  appended (swap_parents_of child people) one_gene two_genes have_trait person
  = appended people one_gene two_genes have_trait person.
Proof.
  unfold appended. rewrite getitem_swap_parents_of.
  case_decide; [|done].
  destruct (getitem people person) as [r|e]; [|done].
  case_decide; [|done]. by rewrite person_factor_swap.
Qed.

Lemma joint_probability_swap child people one_gene two_genes have_trait :
  well_formed people →
  joint_probability (swap_parents_of child people) one_gene two_genes have_trait
  = joint_probability people one_gene two_genes have_trait.
Proof.
  intros Hwf.
  rewrite !joint_probability_well_formed
    by auto using well_formed_swap_parents_of.
  rewrite keys_swap_parents_of. do 2 f_equal.
  induction (keys people) as [|k ks IH]; simpl; [done|].
  by rewrite appended_swap, IH.
Qed.

Lemma any_conflict_swap child people have_trait names :
  any_conflict (swap_parents_of child people) have_trait names
  = any_conflict people have_trait names.
Proof.
  induction names as [|person names IH]; simpl; [done|].
  rewrite getitem_swap_parents_of.
  destruct (getitem people person) as [r|e]; simpl; [|done].
  rewrite IH. by case_decide.
Qed.

(** The driver looks at the population only through its keys, the evidence
    filter and [joint_probability]. *)
Lemma main_loop_congruence people people' probabilities :
  keys people' = keys people →
  (∀ names have_trait,
     fails_evidence people' names have_trait
     = fails_evidence people names have_trait) →
  (∀ one_gene two_genes have_trait,
     joint_probability people' one_gene two_genes have_trait
     = joint_probability people one_gene two_genes have_trait) →
  main_loop people' probabilities = main_loop people probabilities.
Proof.
  intros Hkeys Hfails Hjp. unfold main_loop. rewrite Hkeys.
  apply foldM_ext. intros probabilities0 have_trait _.
  rewrite Hfails. destruct (fails_evidence _ _ _) as [[]|e]; simpl; try done.
  apply foldM_ext. intros probabilities1 one_gene _.
  apply foldM_ext. intros probabilities2 two_genes _.
  unfold accumulate. by rewrite Hjp.
Qed.

Lemma main_congruence people people' :
  keys people' = keys people →
  (∀ names have_trait,
     fails_evidence people' names have_trait
     = fails_evidence people names have_trait) →
  (∀ one_gene two_genes have_trait,
     joint_probability people' one_gene two_genes have_trait
     = joint_probability people one_gene two_genes have_trait) →
  main people' = main people.
Proof.
  intros Hkeys Hfails Hjp. unfold main, initial. rewrite Hkeys.
  by rewrite (main_loop_congruence people people') by done.
Qed.

(** ** [update] *)

Lemma update_person_buckets one_gene two_genes have_trait p person d :
  update_person one_gene two_genes have_trait p person d
  = add_trait (bool_decide (person ∈ have_trait)) p
      (add_gene (updated_gene one_gene two_genes person) p d).
Proof.
  unfold update_person, updated_gene.
  destruct (decide (person ∈ have_trait)) as [Ht|Ht].
  - rewrite bool_decide_eq_true_2 by done. by repeat case_decide.
  - rewrite bool_decide_eq_false_2 by done. rewrite decide_True by done.
    by repeat case_decide.
Qed.

Lemma gene_of_add_gene g p d g' :
  gene_of (add_gene g p d) g'
  = if decide (g' = g) then gene_of d g' + p else gene_of d g'.
Proof. by destruct g, g'. Qed.

Lemma trait_of_add_gene g p d t : trait_of (add_gene g p d) t = trait_of d t.
Proof. by destruct g, t. Qed.

Lemma gene_of_add_trait t p d g : gene_of (add_trait t p d) g = gene_of d g.
Proof. by destruct t, g. Qed.

Lemma trait_of_add_trait t p d t' :
  trait_of (add_trait t p d) t'
  = if decide (t' = t) then trait_of d t' + p else trait_of d t'.
Proof. by destruct t, t'. Qed.

Lemma update_person_masses one_gene two_genes have_trait p person d :
  gene_mass (update_person one_gene two_genes have_trait p person d)
  == gene_mass d + p ∧
  trait_mass (update_person one_gene two_genes have_trait p person d)
  == trait_mass d + p.
Proof.
  rewrite update_person_buckets. unfold gene_mass, trait_mass.
  destruct (bool_decide _), (updated_gene _ _ _); simpl; split; ring.
Qed.

Lemma keys_update probabilities one_gene two_genes have_trait p :
  keys (update probabilities one_gene two_genes have_trait p)
  = keys probabilities.
Proof.
  unfold keys, update. rewrite map_map. by apply map_ext.
Qed.

Lemma update_balanced probabilities one_gene two_genes have_trait p :
  Forall (λ kv, gene_mass kv.2 == trait_mass kv.2) probabilities →
  Forall (λ kv, gene_mass kv.2 == trait_mass kv.2)
    (update probabilities one_gene two_genes have_trait p).
Proof.
  unfold update. intros Hbal. apply Forall_fmap.
  eapply Forall_impl; [exact Hbal|]. intros [person d] Hd. simpl in *.
  destruct (update_person_masses one_gene two_genes have_trait p person d)
    as [-> ->].
  by rewrite Hd.
Qed.

Lemma initial_balanced people :
  Forall (λ kv, gene_mass kv.2 == trait_mass kv.2) (initial people).
Proof.
  unfold initial. apply Forall_fmap, Forall_true. intros person. reflexivity.
Qed.

Lemma keys_initial people : keys (initial people) = keys people.
Proof. unfold keys, initial. rewrite map_map. apply map_id. Qed.

(** ** [normalize] *)

Lemma divide_nonzero (x y : Q) : ¬ y == 0 → divide x y = Ok (x / y).
Proof.
  intros Hy. unfold divide.
  destruct (Qeq_bool y 0) eqn:E; [|done].
  by apply Qeq_bool_iff in E.
Qed.

Lemma divide_zero (x y : Q) : y == 0 → divide x y = Raise ZeroDivisionError.
Proof.
  intros Hy. unfold divide. apply Qeq_bool_iff in Hy. by rewrite Hy.
Qed.

Lemma normalize_person_error (d : marginals) (e : exn) :
  normalize_person d = Raise e → e = ZeroDivisionError.
Proof.
  unfold normalize_person, divide.
  repeat (match goal with
          | |- context [Qeq_bool ?a ?b] => destruct (Qeq_bool a b)
          end; simpl);
    congruence.
Qed.

Lemma normalize_person_zero (d : marginals) :
  trait_mass d == 0 ∨ gene_mass d == 0 →
  normalize_person d = Raise ZeroDivisionError.
Proof.
  intros Hzero. destruct (normalize_person d) as [d'|e] eqn:Hn.
  2: { f_equal. by eapply normalize_person_error. }
  exfalso. revert Hn. unfold normalize_person.
  destruct (Qeq_bool (trait_False d + trait_True d) 1) eqn:Et; simpl.
  - apply Qeq_bool_iff in Et.
    destruct Hzero as [Hz|Hz].
    { unfold trait_mass in Hz. rewrite Qplus_comm, Et in Hz. discriminate Hz. }
    destruct (Qeq_bool (gene_0 d + gene_1 d + gene_2 d) 1) eqn:Eg; simpl.
    { apply Qeq_bool_iff in Eg. unfold gene_mass in Hz. rewrite Eg in Hz.
      discriminate Hz. }
    rewrite (divide_zero (gene_0 d)) by exact Hz. discriminate.
  - destruct (Qeq_bool (trait_False d + trait_True d) 0) eqn:Et0.
    { unfold divide. rewrite Et0. discriminate. }
    apply Qeq_bool_neq in Et0.
    rewrite !divide_nonzero by done. simpl.
    destruct Hzero as [Hz|Hz].
    { exfalso. apply Et0. unfold trait_mass in Hz. by rewrite Qplus_comm. }
    destruct (Qeq_bool (gene_0 d + gene_1 d + gene_2 d) 1) eqn:Eg; simpl.
    { apply Qeq_bool_iff in Eg. unfold gene_mass in Hz. rewrite Eg in Hz.
      discriminate Hz. }
    rewrite (divide_zero (gene_0 d)) by exact Hz. discriminate.
Qed.

Lemma normalize_error probabilities (e : exn) :
  normalize probabilities = Raise e → e = ZeroDivisionError.
Proof.
  unfold normalize. induction probabilities as [|[k d] l IH]; simpl; [done|].
  destruct (normalize_person d) as [d'|e'] eqn:Hd; simpl.
  - destruct (forM _ l) as [l'|e'']; simpl; [done|].
    intros [= <-]. by apply IH.
  - intros [= <-]. by eapply normalize_person_error.
Qed.

(** The effect of [normalize_person] when both masses are not zero: each
    distribution is multiplied by the factor that brings its mass to 1. *)
Lemma normalize_person_nonzero (d : marginals) :
  ¬ trait_mass d == 0 → ¬ gene_mass d == 0 →
  ∃ d' ct cg,
    normalize_person d = Ok d' ∧
    ct * trait_mass d == 1 ∧
    cg * gene_mass d == 1 ∧
    (∀ t, trait_of d' t == ct * trait_of d t) ∧
    (∀ g, gene_of d' g == cg * gene_of d g).
Proof.
  intros Ht Hg. unfold normalize_person.
  assert (Ht' : ¬ trait_False d + trait_True d == 0).
  { intros E. apply Ht. unfold trait_mass. by rewrite Qplus_comm. }
  assert (Hg' : ¬ gene_0 d + gene_1 d + gene_2 d == 0) by exact Hg.
  destruct (Qeq_bool (trait_False d + trait_True d) 1) eqn:Et; simpl;
    rewrite ?divide_nonzero by done; simpl;
    destruct (Qeq_bool (gene_0 d + gene_1 d + gene_2 d) 1) eqn:Eg; simpl;
    rewrite ?divide_nonzero by done; simpl;
    try apply Qeq_bool_iff in Et; try apply Qeq_bool_iff in Eg.
  - exists d, 1, 1. split; [done|].
    split; [unfold trait_mass; rewrite Qplus_comm, Et; ring|].
    split; [unfold gene_mass; rewrite Eg; ring|].
    split; intros; ring.
  - eexists. exists 1, (/ gene_mass d). split; [reflexivity|].
    split; [unfold trait_mass; rewrite Qplus_comm, Et; ring|].
    split; [by field|].
    split; [intros [|]; simpl; ring|].
    intros [| |]; simpl; unfold gene_mass; by field.
  - eexists. exists (/ trait_mass d), 1. split; [reflexivity|].
    split; [by field|].
    split; [unfold gene_mass; rewrite Eg; ring|].
    split; [|intros [| |]; simpl; ring].
    intros [|]; simpl; unfold trait_mass; field; exact Ht.
  - eexists. exists (/ trait_mass d), (/ gene_mass d). split; [reflexivity|].
    split; [by field|]. split; [by field|].
    split.
    + intros [|]; simpl; unfold trait_mass; field; exact Ht.
    + intros [| |]; simpl; unfold gene_mass; by field.
Qed.

Lemma positive_factor (c m : Q) : 0 < m → c * m == 1 → 0 < c.
Proof.
  intros Hm Hcm. destruct (Qlt_le_dec 0 c) as [|Hc]; [done|]. exfalso.
  assert (c * m <= 0) by nra. rewrite Hcm in *. by apply (Qlt_not_le 0 1).
Qed.

(** ** [powerset]: every subset exactly once *)

Lemma elem_of_map {A B : Type} (f : A → B) (l : list A) (y : B) :
  y ∈ map f l ↔ ∃ x, y = f x ∧ x ∈ l.
Proof. apply (list_elem_of_fmap f l y). Qed.

Lemma elem_of_flat_map {A B : Type} (f : A → list B) (l : list A) (y : B) :
  y ∈ flat_map f l ↔ ∃ x, y ∈ f x ∧ x ∈ l.
Proof. apply (list_elem_of_bind f y l). Qed.



Section combinations.
Context {A : Type}.
Implicit Types (l : list A) (r k : nat).

Lemma combinations_0 l : combinations l 0 = [[]].
Proof. by destruct l. Qed.

Lemma combinations_too_long l r : (length l < r)%nat → combinations l r = [].
Proof.
  revert r. induction l as [|x l IH]; intros [|r] Hr; simpl in *;
    try lia; [done|].
  rewrite (IH r), (IH (S r)) by lia. done.
Qed.

Lemma flat_combinations_cons x l (rs : list nat) :
  flat_map (combinations (x :: l)) (map S rs)
  ≡ₚ map (cons x) (flat_map (combinations l) rs)
     ++ flat_map (combinations l) (map S rs).
Proof.
  induction rs as [|r rs IH]; [done|].
  cbn [map flat_map combinations].
  rewrite IH, map_app. solve_Permutation.
Qed.

Lemma all_combinations_cons x l :
  all_combinations (x :: l)
  ≡ₚ map (cons x) (all_combinations l) ++ all_combinations l.
Proof.
  unfold all_combinations.
  replace (length (x :: l) + 1)%nat with (S (length l + 1)) by (simpl; lia).
  assert (Hseq : ∀ k, seq 0 (S k) = 0%nat :: map S (seq 0 k)).
  { intros k. simpl. by rewrite seq_shift. }
  rewrite (Hseq (length l + 1)%nat).
  cbn [flat_map]. rewrite flat_combinations_cons.
  change (combinations (x :: l) 0) with [@nil A].
  transitivity (map (cons x) (flat_map (combinations l) (seq 0 (length l + 1)))
                ++ flat_map (combinations l) (seq 0 (S (length l + 1)))).
  { rewrite (Hseq (length l + 1)%nat). cbn [flat_map].
    rewrite combinations_0. solve_Permutation. }
  rewrite (seq_S (length l + 1)), flat_map_app. cbn [flat_map].
  rewrite combinations_too_long by (simpl; lia).
  by rewrite !app_nil_r.
Qed.

Lemma all_combinations_sublists l : all_combinations l ≡ₚ sublists l.
Proof.
  induction l as [|x l IH]; [done|].
  rewrite all_combinations_cons. simpl.
  apply Permutation_app; [|done]. by apply Permutation_map.
Qed.

End combinations.

Section subsets.
Implicit Types (l : list string) (X Y M : gset string).

Local Abbreviation subsets l :=
  (map (list_to_set (C := gset string)) (sublists l)).

Lemma subsets_cons x l :
  subsets (x :: l) = map (union {[x]}) (subsets l) ++ subsets l.
Proof. simpl. by rewrite map_app, !map_map. Qed.

Lemma elem_of_subsets l X : X ∈ subsets l ↔ X ⊆ list_to_set l.
Proof.
  revert X. induction l as [|x l IH]; intros X.
  - simpl. rewrite list_elem_of_singleton. set_solver.
  - rewrite subsets_cons, elem_of_app, elem_of_map. split.
    + intros [(Y & -> & HY%IH)|HX%IH]; set_solver.
    + intros HX. destruct (decide (x ∈ X)) as [Hx|Hx].
      * left. exists (X ∖ {[x]}). split.
        { by apply union_difference_singleton_L. }
        apply IH. set_solver.
      * right. apply IH. set_solver.
Qed.






Lemma powerset_subsets X : powerset X ≡ₚ subsets (elements X).
Proof.
  unfold powerset. apply Permutation_map, all_combinations_sublists.
Qed.

Lemma elem_of_powerset X Y : Y ∈ powerset X ↔ Y ⊆ X.
Proof.
  rewrite powerset_subsets, elem_of_subsets.
  by rewrite list_to_set_elements_L.
Qed.


End subsets.

(** ** The nested loops of [main] *)

Lemma elem_of_gene_pairs names one_gene two_genes :
  (one_gene, two_genes) ∈ gene_pairs names
  ↔ one_gene ⊆ names ∧ two_genes ⊆ names ∧ one_gene ## two_genes.
Proof.
  unfold gene_pairs. rewrite elem_of_flat_map. split.
  - intros (o & (t & [= -> ->] & Ht%elem_of_powerset)%elem_of_map
            & Ho%elem_of_powerset).
    set_solver.
  - intros (Ho & Ht & Hdisj). exists one_gene. split.
    + apply elem_of_map. exists two_genes. split; [done|].
      apply elem_of_powerset. set_solver.
    + by apply elem_of_powerset.
Qed.



Lemma elem_of_candidates names have_trait one_gene two_genes :
  (have_trait, one_gene, two_genes) ∈ candidates names
  ↔ have_trait ⊆ names ∧ one_gene ⊆ names ∧ two_genes ⊆ names
    ∧ one_gene ## two_genes.
Proof.
  unfold candidates. rewrite elem_of_flat_map. split.
  - intros (h & ([o t] & [= -> -> ->] & Hot%elem_of_gene_pairs)%elem_of_map
            & Hh%elem_of_powerset).
    tauto.
  - intros (Hh & Hot). exists have_trait. split.
    + apply elem_of_map. exists (one_gene, two_genes). split; [done|].
      by apply elem_of_gene_pairs.
    + by apply elem_of_powerset.
Qed.




Lemma elem_of_evaluated people have_trait one_gene two_genes :
  (have_trait, one_gene, two_genes) ∈ evaluated people
  ↔ (have_trait, one_gene, two_genes) ∈ candidates (list_to_set (keys people))
    ∧ fails_evidence people (list_to_set (keys people)) have_trait = Ok false.
Proof.
  unfold evaluated, candidates. rewrite !elem_of_flat_map. split.
  - intros (h & Hin & Hh).
    destruct (fails_evidence people _ h) as [[|]|e] eqn:Hf;
      try by apply elem_of_nil in Hin.
    pose proof Hin as (ot & [= -> _ _] & _)%elem_of_map. eauto.
  - intros [(h & Hin & Hh) Hf].
    pose proof Hin as (ot & [= <- _ _] & _)%elem_of_map.
    exists have_trait. by rewrite Hf.
Qed.


Lemma foldM_map {S A B : Type} (body : S → B → result S) (g : A → B) s (l : list A) :
  foldM body s (map g l) = foldM (λ s a, body s (g a)) s l.
Proof.
  revert s. induction l as [|a l IH]; intros s; simpl; [done|].
  destruct (body s (g a)) as [s'|e]; simpl; [apply IH|done].
Qed.

Lemma foldM_flat_map {S A B : Type} (body : S → B → result S) (f : A → list B)
    s (l : list A) :
  foldM body s (flat_map f l) = foldM (λ s a, foldM body s (f a)) s l.
Proof.
  revert s. induction l as [|a l IH]; intros s; simpl; [done|].
  rewrite foldM_app.
  destruct (foldM body s (f a)) as [s'|e]; simpl; [apply IH|done].
Qed.

(** ** The evidence filter *)

Lemma elem_of_keys {V : Type} (d : list (string * V)) (k : string) (v : V) :
  (k, v) ∈ d → k ∈ keys d.
Proof.
  intros Hkv. unfold keys. apply elem_of_map. by exists (k, v).
Qed.

Lemma any_conflict_spec people have_trait (l : list string) :
  l ⊆ keys people →
  ∃ fails,
    any_conflict people have_trait l = Ok fails ∧
    (fails = true ↔
     ∃ person r b, person ∈ l ∧ getitem people person = Ok r ∧
       trait r = Some b ∧ b ≠ bool_decide (person ∈ have_trait)).
Proof.
  induction l as [|person l IH]; intros Hl; simpl.
  - exists false. split; [done|]. split; [done|].
    by intros (? & ? & ? & ?%elem_of_nil & _).
  - destruct (getitem_keys people person) as [r Hr]; [set_solver|].
    rewrite Hr. simpl.
    destruct IH as (fails & Hfails & Hiff); [set_solver|].
    destruct (trait r) as [b|] eqn:Hb.
    + destruct (negb (eqb b (bool_decide (person ∈ have_trait)))) eqn:Hneq.
      * exists true. split; [done|]. split; [|done]. intros _.
        exists person, r, b. split; [left|]. split; [done|]. split; [done|].
        intros ->. by rewrite eqb_reflx in Hneq.
      * exists fails. split; [done|]. rewrite Hiff. split.
        -- intros (p & r' & b' & Hp & Hrest). exists p, r', b'.
           split; [by right|done].
        -- intros (p & r' & b' & [->|Hp]%elem_of_cons & Hr' & Hb' & Hne).
           ++ rewrite Hr in Hr'. injection Hr' as <-.
              rewrite Hb in Hb'. injection Hb' as <-.
              apply negb_false_iff, eqb_prop in Hneq. done.
           ++ exists p, r', b'. done.
    + exists fails. split; [done|]. rewrite Hiff. split.
      * intros (p & r' & b' & Hp & Hrest). exists p, r', b'.
        split; [by right|done].
      * intros (p & r' & b' & [->|Hp]%elem_of_cons & Hr' & Hb' & Hne).
        -- rewrite Hr in Hr'. injection Hr' as <-. congruence.
        -- exists p, r', b'. done.
Qed.

Lemma fails_evidence_spec people have_trait :
  ∃ fails,
    fails_evidence people (list_to_set (keys people)) have_trait = Ok fails ∧
    (fails = true ↔
     ∃ person r b, getitem people person = Ok r ∧
       trait r = Some b ∧ b ≠ bool_decide (person ∈ have_trait)).
Proof.
  unfold fails_evidence.
  destruct (any_conflict_spec people have_trait
              (elements (list_to_set (keys people) : gset string)))
    as (fails & Hfails & Hiff).
  { intros person. rewrite elem_of_elements, elem_of_list_to_set. done. }
  exists fails. split; [done|]. rewrite Hiff. split.
  - intros (p & r & b & _ & Hrest). eauto.
  - intros (p & r & b & Hr & Hrest). exists p, r, b. split; [|done].
    rewrite elem_of_elements, elem_of_list_to_set.
    eapply elem_of_keys, getitem_elem, Hr.
Qed.

(** The driver's loops visit exactly the triples of [evaluated], in order. *)
Lemma main_loop_evaluated people probabilities :
  main_loop people probabilities
  = foldM (accumulate people) probabilities (evaluated people).
Proof.
  unfold main_loop, evaluated. rewrite foldM_flat_map.
  apply foldM_ext. intros pr have_trait _.
  destruct (fails_evidence_spec people have_trait) as (fails & -> & _).
  simpl. destruct fails; [done|].
  rewrite foldM_map. unfold gene_pairs. rewrite foldM_flat_map.
  apply foldM_ext. intros pr1 one_gene _.
  by rewrite foldM_map.
Qed.



Lemma evaluated_no_evidence people :
  (∀ kv, kv ∈ people → trait kv.2 = None) →
  evaluated people = candidates (list_to_set (keys people)).
Proof.
  intros Hnone. unfold evaluated, candidates.
  induction (powerset _) as [|h l IH]; simpl; [done|].
  rewrite IH. f_equal.
  destruct (fails_evidence_spec people h) as (fails & -> & Hiff).
  destruct fails; [|done].
  destruct (proj1 Hiff eq_refl) as (p & r & b & Hr%getitem_elem & Hb & _).
  apply Hnone in Hr. simpl in Hr. congruence.
Qed.

(** ** A single person without parents and without observed trait *)

Lemma powerset_empty : powerset ∅ = [∅].
Proof. unfold powerset. by rewrite elements_empty. Qed.

Lemma powerset_singleton (x : string) : powerset {[x]} = [∅; {[x]}].
Proof.
  unfold powerset. rewrite elements_singleton. simpl.
  by rewrite (right_id_L ∅ (∪)).
Qed.

Lemma candidates_singleton (x : string) :
  candidates {[x]}
  = [(∅, ∅, ∅); (∅, ∅, {[x]}); (∅, {[x]}, ∅);
     ({[x]}, ∅, ∅); ({[x]}, ∅, {[x]}); ({[x]}, {[x]}, ∅)].
Proof.
  unfold candidates, gene_pairs. rewrite powerset_singleton. simpl.
  replace ({[x]} ∖ ∅ : gset string) with ({[x]} : gset string) by set_solver.
  replace ({[x]} ∖ {[x]} : gset string) with (∅ : gset string) by set_solver.
  rewrite powerset_singleton, powerset_empty. reflexivity.
Qed.

Lemma joint_probability_single person r one_gene two_genes have_trait :
  mother r = None → father r = None → one_gene ## two_genes →
  joint_probability [(person, r)] one_gene two_genes have_trait
  = Ok (1 * (1 * (PROBS_gene (person_genes_of one_gene two_genes person)
                  * PROBS_trait (person_genes_of one_gene two_genes person)
                                (bool_decide (person ∈ have_trait))))).
Proof.
  intros Hm Hf Hdisj. rewrite joint_probability_well_formed.
  2: { constructor; [|constructor]. unfold parents_paired. simpl.
       by rewrite Hm, Hf. }
  simpl. unfold appended. simpl.
  rewrite (decide_True (P := person = person)) by done.
  rewrite decide_True.
  2: { destruct (decide (person ∈ one_gene)) as [Hk|Hk]; [right|by left].
       intros Hk'. exact (Hdisj person Hk Hk'). }
  unfold person_factor. by rewrite Hm.
Qed.

Lemma person_genes_of_none (x : string) : person_genes_of ∅ ∅ x = G0.
Proof. unfold person_genes_of. by rewrite !decide_False by set_solver. Qed.

Lemma person_genes_of_one (x : string) : person_genes_of {[x]} ∅ x = G1.
Proof.
  unfold person_genes_of. rewrite decide_False by set_solver.
  by rewrite decide_True by set_solver.
Qed.

Lemma person_genes_of_two (x : string) : person_genes_of ∅ {[x]} x = G2.
Proof. unfold person_genes_of. by rewrite decide_True by set_solver. Qed.

Lemma updated_gene_none (x : string) : updated_gene ∅ ∅ x = G0.
Proof. unfold updated_gene. by rewrite !decide_False by set_solver. Qed.

Lemma updated_gene_one (x : string) : updated_gene {[x]} ∅ x = G1.
Proof. unfold updated_gene. by rewrite decide_True by set_solver. Qed.

Lemma updated_gene_two (x : string) : updated_gene ∅ {[x]} x = G2.
Proof.
  unfold updated_gene. rewrite decide_False by set_solver.
  by rewrite decide_True by set_solver.
Qed.

(** ** The sample inputs *)

Lemma sample_family_well_formed : well_formed sample_family.
Proof. repeat constructor. Defined.

Lemma sample_family_NoDup : NoDup (keys sample_family).
Proof.
  apply (bool_decide_unpack (NoDup (keys sample_family))).
  vm_compute. exact I.
Defined.

Lemma sample_sets_disjoint :
  ({["Harry"%string]} : gset string) ## ({["James"%string]} : gset string).
Proof.
  apply (bool_decide_unpack
           (({["Harry"%string]} : gset string) ## ({["James"%string]} : gset string))).
  vm_compute. exact I.
Defined.

(** The whole run on the sample family: the observed traits of James and
    Lily come out with probability 1, and James's gene distribution is
    65/329, 24/47, 96/329 (0.1976, 0.5106, 0.2918). *)
Example main_sample_family :
  ∃ harry james lily,
    main sample_family
    = Ok [("Harry"%string, harry); ("James"%string, james);
          ("Lily"%string, lily)] ∧
    (trait_True james == 1 ∧ trait_False james == 0) ∧
    (trait_True lily == 0 ∧ trait_False lily == 1) ∧
    (gene_2 james == 65 # 329 ∧ gene_1 james == 24 # 47
     ∧ gene_0 james == 96 # 329) ∧
    trait_True harry + trait_False harry == 1.
Proof.
  do 3 eexists. split; [vm_compute; reflexivity|]. by vm_compute.
Qed.

(** ** The binary64 functions *)

Lemma update_person_buckets_binary64 one_gene two_genes have_trait p person d :
  B64.update_person one_gene two_genes have_trait p person d
  = B64.add_trait (bool_decide (person ∈ have_trait)) p
      (B64.add_gene (updated_gene one_gene two_genes person) p d).
Proof.
  unfold B64.update_person, updated_gene.
  destruct (decide (person ∈ have_trait)) as [Ht|Ht].
  - rewrite bool_decide_eq_true_2 by done. by repeat case_decide.
  - rewrite bool_decide_eq_false_2 by done. rewrite decide_True by done.
    by repeat case_decide.
Qed.

Lemma gene_of_add_gene_binary64 g p d g' :
  B64.gene_of (B64.add_gene g p d) g'
  = if decide (g' = g) then PrimFloat.add (B64.gene_of d g') p
    else B64.gene_of d g'.
Proof. by destruct g, g'. Qed.

Lemma trait_of_add_gene_binary64 g p d t :
  B64.trait_of (B64.add_gene g p d) t = B64.trait_of d t.
Proof. by destruct g, t. Qed.

Lemma gene_of_add_trait_binary64 t p d g :
  B64.gene_of (B64.add_trait t p d) g = B64.gene_of d g.
Proof. by destruct t, g. Qed.

Lemma trait_of_add_trait_binary64 t p d t' :
  B64.trait_of (B64.add_trait t p d) t'
  = if decide (t' = t) then PrimFloat.add (B64.trait_of d t') p
    else B64.trait_of d t'.
Proof. by destruct t, t'. Qed.

Lemma keys_updates_binary64 calls (probabilities : list (string * B64.marginals)) :
  keys (B64.updates calls probabilities) = keys probabilities.
Proof.
  unfold B64.updates. revert probabilities.
  induction calls as [|[[[one_gene two_genes] have_trait] p] calls IH];
    intros probabilities; simpl; [done|].
  rewrite IH. unfold keys, B64.update. rewrite map_map. by apply map_ext.
Qed.

Lemma keys_initial_binary64 people : keys (B64.initial people) = keys people.
Proof. unfold keys, B64.initial. rewrite map_map. apply map_id. Qed.

(** * The properties of the inference core *)

(** ** The evaluator computes the product of the per-person terms *)

(** C1. On a population (a dictionary, so with distinct keys) in which every
    person has both parent references or none, and for disjoint [one_gene]
    and [two_genes] and any [have_trait], [joint_probability] returns the
    product over all persons of P(gene=g) * P(trait=t | gene=g) as the claim
    spells it out. *)
Theorem joint_probability_product people one_gene two_genes have_trait :
  NoDup (keys people) → well_formed people → one_gene ## two_genes →
  ∃ p, joint_probability people one_gene two_genes have_trait = Ok p ∧
       p == Qprod (map (λ kv, spec_person_probability one_gene two_genes
                                have_trait kv.1 kv.2) people).
Proof.
  intros Hnd Hwf Hdisj. eexists. split.
  { by apply joint_probability_well_formed. }
  rewrite fold_left_Qmult, appended_entries by done.
  rewrite Qmult_1_l. apply Qprod_Forall2.
  unfold well_formed in Hwf. clear Hnd.
  induction Hwf as [|[k v] people Hkv _ IH]; simpl; constructor; [|done].
  by apply person_factor_spec.
Qed.

(** C1 on the sample family, for "Harry has one copy, James has two copies
    and the trait". *)
Lemma joint_probability_product_witness :
  NoDup (keys sample_family) ∧ well_formed sample_family ∧
  ({["Harry"%string]} : gset string) ## ({["James"%string]} : gset string) ∧
  ∃ p,
    joint_probability sample_family {["Harry"%string]} {["James"%string]}
      {["James"%string]} = Ok p ∧
    p == Qprod (map (λ kv, spec_person_probability {["Harry"%string]}
                             {["James"%string]} {["James"%string]} kv.1 kv.2)
                    sample_family).
Proof.
  split; [exact sample_family_NoDup|].
  split; [exact sample_family_well_formed|].
  split; [exact sample_sets_disjoint|].
  exact (joint_probability_product sample_family {["Harry"%string]}
           {["James"%string]} {["James"%string]} sample_family_NoDup
           sample_family_well_formed sample_sets_disjoint).
Defined.

(** ** Coverage of the enumeration *)




(** ** The evidence filter *)

(** C3.  The evidence filter returns, without raising, [true] exactly when
    some person whose trait is observed disagrees with membership in
    [have_trait], and [false] exactly when [have_trait] agrees with every
    observation; a triple is evaluated by the driver exactly when it is
    enumerated and the filter returned [false] for its trait set, so whether
    it is discarded does not depend on its gene sets. *)
Theorem evidence_filter (people : list (string * Person)) (have_trait : gset string) :
  let names : gset string := list_to_set (keys people) in
  ∃ fails,
    fails_evidence people names have_trait = Ok fails ∧
    (fails = true ↔
     ∃ person r b, getitem people person = Ok r ∧ trait r = Some b ∧
       b ≠ bool_decide (person ∈ have_trait)) ∧
    (fails = false ↔
     ∀ person r b, getitem people person = Ok r → trait r = Some b →
       b = bool_decide (person ∈ have_trait)) ∧
    (∀ one_gene two_genes,
       (have_trait, one_gene, two_genes) ∈ evaluated people
       ↔ (have_trait, one_gene, two_genes) ∈ candidates names ∧ fails = false) ∧
    (∀ one_gene two_genes one_gene' two_genes',
       (have_trait, one_gene, two_genes) ∈ candidates names →
       (have_trait, one_gene', two_genes') ∈ candidates names →
       ((have_trait, one_gene, two_genes) ∈ evaluated people
        ↔ (have_trait, one_gene', two_genes') ∈ evaluated people)) ∧
    (∀ probabilities,
       main_loop people probabilities
       = foldM (accumulate people) probabilities (evaluated people)).
Proof.
  intros names.
  destruct (fails_evidence_spec people have_trait) as (fails & Hf & Hiff).
  fold names in Hf. exists fails. split; [done|]. split; [done|].
  split; [|split; [|split]].
  - split.
    + intros -> person r b Hr Hb.
      destruct (decide (b = bool_decide (person ∈ have_trait))) as [|Hne];
        [done|].
      assert (false = true) by (apply Hiff; eauto 6). done.
    + intros Hall. destruct fails; [|done].
      destruct (proj1 Hiff eq_refl) as (person & r & b & Hr & Hb & Hne).
      destruct Hne. eauto.
  - intros one_gene two_genes. rewrite elem_of_evaluated. fold names.
    rewrite Hf. split; intros [? ?]; split; congruence.
  - intros one_gene two_genes one_gene' two_genes' Hc Hc'.
    rewrite !elem_of_evaluated. fold names. tauto.
  - intros probabilities. apply main_loop_evaluated.
Qed.

(** C3 on the sample family, for the trait set that matches the two
    observations. *)
Lemma evidence_filter_witness :
  ∃ fails,
    fails_evidence sample_family (list_to_set (keys sample_family))
      {["James"%string]} = Ok fails ∧
    (fails = true ↔
     ∃ person r b, getitem sample_family person = Ok r ∧ trait r = Some b ∧
       b ≠ bool_decide (person ∈ ({["James"%string]} : gset string))) ∧
    (fails = false ↔
     ∀ person r b, getitem sample_family person = Ok r → trait r = Some b →
       b = bool_decide (person ∈ ({["James"%string]} : gset string))).
Proof.
  destruct (evidence_filter sample_family {["James"%string]})
    as (fails & Hf & Htrue & Hfalse & _).
  exists fails. split; [exact Hf|]. split; [exact Htrue|exact Hfalse].
Defined.

(** ** Normalisation *)

(** C4.  When every person's gene masses and trait masses have strictly
    positive sums, [normalize] returns; it keeps the persons, makes each
    gene distribution and each trait distribution sum to 1, and scales each
    distribution by one positive factor, so that the ratios between its
    values are the ones before normalisation. *)
Theorem normalize_sums_to_one (probabilities : list (string * marginals)) :
  Forall (λ kv, 0 < gene_0 kv.2 + gene_1 kv.2 + gene_2 kv.2 ∧
                0 < trait_True kv.2 + trait_False kv.2) probabilities →
  ∃ normalized,
    normalize probabilities = Ok normalized ∧
    Forall2 (λ kv kv',
        kv'.1 = kv.1 ∧
        gene_0 kv'.2 + gene_1 kv'.2 + gene_2 kv'.2 == 1 ∧
        trait_True kv'.2 + trait_False kv'.2 == 1 ∧
        (∃ c, 0 < c ∧ ∀ g, gene_of kv'.2 g == c * gene_of kv.2 g) ∧
        (∃ c, 0 < c ∧ ∀ t, trait_of kv'.2 t == c * trait_of kv.2 t) ∧
        (∀ g g', gene_of kv'.2 g * gene_of kv.2 g'
                 == gene_of kv'.2 g' * gene_of kv.2 g) ∧
        (∀ t t', trait_of kv'.2 t * trait_of kv.2 t'
                 == trait_of kv'.2 t' * trait_of kv.2 t))
      probabilities normalized.
Proof.
  unfold normalize.
  induction 1 as [|[person d] l [Hg Ht] _ (normalized & Hl & IH)]; simpl.
  { exists []. split; [done|]. constructor. }
  rewrite Hl. simpl in Hg, Ht.
  destruct (normalize_person_nonzero d)
    as (d' & ct & cg & -> & Hct & Hcg & Htr & Hge).
  { unfold trait_mass. intros E. rewrite E in Ht. discriminate Ht. }
  { unfold gene_mass. intros E. rewrite E in Hg. discriminate Hg. }
  simpl. eexists. split; [reflexivity|]. constructor; [|done]. simpl.
  assert (Hgsum : gene_0 d' + gene_1 d' + gene_2 d' == 1).
  { rewrite (Hge G0), (Hge G1), (Hge G2), <- Hcg. unfold gene_mass. simpl.
    ring. }
  assert (Htsum : trait_True d' + trait_False d' == 1).
  { rewrite (Htr true), (Htr false), <- Hct. unfold trait_mass. simpl.
    ring. }
  assert (Hcg0 : 0 < cg)
    by (apply (positive_factor cg (gene_mass d)); [exact Hg|exact Hcg]).
  assert (Hct0 : 0 < ct)
    by (apply (positive_factor ct (trait_mass d)); [exact Ht|exact Hct]).
  repeat split; try done.
  - by exists cg.
  - by exists ct.
  - intros g g'. rewrite (Hge g), (Hge g'). ring.
  - intros t t'. rewrite (Htr t), (Htr t'). ring.
Qed.

(** C4 on [sample_masses]. *)
Lemma normalize_sums_to_one_witness :
  Forall (λ kv, 0 < gene_0 kv.2 + gene_1 kv.2 + gene_2 kv.2 ∧
                0 < trait_True kv.2 + trait_False kv.2) sample_masses ∧
  ∃ normalized,
    normalize sample_masses = Ok normalized ∧
    Forall2 (λ kv kv',
        kv'.1 = kv.1 ∧
        gene_0 kv'.2 + gene_1 kv'.2 + gene_2 kv'.2 == 1 ∧
        trait_True kv'.2 + trait_False kv'.2 == 1 ∧
        (∃ c, 0 < c ∧ ∀ g, gene_of kv'.2 g == c * gene_of kv.2 g) ∧
        (∃ c, 0 < c ∧ ∀ t, trait_of kv'.2 t == c * trait_of kv.2 t) ∧
        (∀ g g', gene_of kv'.2 g * gene_of kv.2 g'
                 == gene_of kv'.2 g' * gene_of kv.2 g) ∧
        (∀ t t', trait_of kv'.2 t * trait_of kv.2 t'
                 == trait_of kv'.2 t' * trait_of kv.2 t))
      sample_masses normalized.
Proof.
  assert (Hpos : Forall (λ kv, 0 < gene_0 kv.2 + gene_1 kv.2 + gene_2 kv.2 ∧
                               0 < trait_True kv.2 + trait_False kv.2)
                   sample_masses).
  { constructor; [split; reflexivity|constructor]. }
  split; [exact Hpos|].
  exact (normalize_sums_to_one sample_masses Hpos).
Defined.

(** ** Normalisation of a zero mass *)

(** C5.  When some person's trait masses or gene masses sum to exactly
    zero, [normalize] raises [ZeroDivisionError]: no distribution is
    returned for anybody. *)
Theorem normalize_zero_mass_raises (probabilities : list (string * marginals)) :
  Exists (λ kv, trait_True kv.2 + trait_False kv.2 == 0 ∨
                gene_0 kv.2 + gene_1 kv.2 + gene_2 kv.2 == 0) probabilities →
  normalize probabilities = Raise ZeroDivisionError.
Proof.
  intros Hex. destruct (normalize probabilities) as [normalized|e] eqn:Hn.
  2: { f_equal. by eapply normalize_error. }
  exfalso. revert normalized Hn. unfold normalize.
  induction Hex as [[person d] l Hzero|[person d] l _ IH];
    intros normalized; simpl.
  - rewrite (normalize_person_zero d) by exact Hzero. discriminate.
  - destruct (normalize_person d) as [d'|]; simpl; [|discriminate].
    destruct (forM _ l) as [l'|] eqn:Hl; simpl; [|discriminate].
    intros _. by eapply IH.
Qed.

(** C5 on the accumulator of a one-person population before any update. *)
Lemma normalize_zero_mass_raises_witness :
  Exists (λ kv, trait_True kv.2 + trait_False kv.2 == 0 ∨
                gene_0 kv.2 + gene_1 kv.2 + gene_2 kv.2 == 0)
    [("Harry"%string, zero_marginals)] ∧
  normalize [("Harry"%string, zero_marginals)] = Raise ZeroDivisionError.
Proof.
  assert (Hz : Exists (λ kv, trait_True kv.2 + trait_False kv.2 == 0 ∨
                             gene_0 kv.2 + gene_1 kv.2 + gene_2 kv.2 == 0)
                 [("Harry"%string, zero_marginals)]).
  { left. left. reflexivity. }
  split; [exact Hz|].
  exact (normalize_zero_mass_raises [("Harry"%string, zero_marginals)] Hz).
Defined.

(** ** The inheritance terms sum to one *)

(** C6. Whatever the parents' gene counts, with the transmission
    probabilities the evaluator assigns (0.5, 1 - mutation or mutation), the
    three terms for gene = 2, 1, 0 add up to 1, both in the order the code
    writes them and in the order of the specification. *)
Theorem inherited_sum_to_one (one_gene two_genes : gset string) (mother father : string) :
  let pM := transmission one_gene two_genes mother in
  let pF := transmission one_gene two_genes father in
  inherited G2 pM pF + inherited G1 pM pF + inherited G0 pM pF == 1 ∧
  pM * pF + (pM * (1 - pF) + (1 - pM) * pF) + (1 - pM) * (1 - pF) == 1 ∧
  (pM = 0.5 ∨ pM = 1 - PROBS_mutation ∨ pM = PROBS_mutation) ∧
  (pF = 0.5 ∨ pF = 1 - PROBS_mutation ∨ pF = PROBS_mutation).
Proof.
  intros pM pF. repeat split.
  - simpl. ring.
  - ring.
  - unfold pM, transmission. repeat case_decide; auto.
  - unfold pF, transmission. repeat case_decide; auto.
Qed.

(** ** A single person without parents and evidence *)

(** C7.  For one person without parents and without observed trait,
    [main] returns that person alone, with the gene distribution of the
    prior table (0.96, 0.03, 0.01 for 0, 1, 2 copies) and, for each trait
    value, the sum over the gene counts of prior times emission. *)
Theorem single_person_prior (person nm : string) :
  let people :=
    [(person, {| name := nm; mother := None; father := None; trait := None |})] in
  ∃ d,
    main people = Ok [(person, d)] ∧
    (gene_0 d == 0.96 ∧ gene_1 d == 0.03 ∧ gene_2 d == 0.01) ∧
    (∀ g, gene_of d g == PROBS_gene g) ∧
    (∀ t, trait_of d t
          == PROBS_gene G0 * PROBS_trait G0 t + PROBS_gene G1 * PROBS_trait G1 t
             + PROBS_gene G2 * PROBS_trait G2 t).
Proof.
  intros people. unfold main. rewrite main_loop_evaluated.
  rewrite evaluated_no_evidence.
  2: { intros kv ->%list_elem_of_singleton. done. }
  replace (list_to_set (keys people) : gset string) with ({[person]} : gset string)
    by set_solver.
  rewrite candidates_singleton.
  cbn [foldM accumulate]. unfold people.
  rewrite !joint_probability_single by (done || set_solver).
  rewrite person_genes_of_none, person_genes_of_one, person_genes_of_two.
  rewrite (bool_decide_eq_false_2 (person ∈ (∅ : gset string))) by set_solver.
  rewrite (bool_decide_eq_true_2 (person ∈ ({[person]} : gset string)))
    by set_solver.
  unfold initial, update. cbn [keys map fst snd mbind result_bind].
  rewrite !update_person_buckets.
  rewrite updated_gene_none, updated_gene_one, updated_gene_two.
  rewrite (bool_decide_eq_false_2 (person ∈ (∅ : gset string))) by set_solver.
  rewrite (bool_decide_eq_true_2 (person ∈ ({[person]} : gset string)))
    by set_solver.
  eexists. split; [vm_compute; reflexivity|].
  split; [by vm_compute|].
  split; [by intros [| |]; vm_compute|by intros [|]; vm_compute].
Qed.

(** ** Exchanging mother and father *)

(** C8, as stated, fails: when a later record lists one parent only, that
    person reads the transmission probability left behind by the child, and
    exchanging the child's parents changes which value is left behind. *)
Lemma swap_parents_counterexample :
  let people :=
    [("James"%string,
      {| name := "James"; mother := None; father := None; trait := None |});
     ("Lily"%string,
      {| name := "Lily"; mother := None; father := None; trait := None |});
     ("Harry"%string,
      {| name := "Harry"; mother := Some "Lily"%string;
         father := Some "James"%string; trait := None |});
     ("Ron"%string,
      {| name := "Ron"; mother := Some "Lily"%string; father := None;
         trait := None |})] in
  ∃ p p',
    joint_probability people {["Lily"%string]} ∅ ∅ = Ok p ∧
    joint_probability (swap_parents_of "Harry" people) {["Lily"%string]} ∅ ∅
    = Ok p' ∧
    ¬ p' == p.
Proof.
  intros people. eexists. eexists.
  split; [vm_compute; reflexivity|].
  split; [vm_compute; reflexivity|].
  unfold Qeq. vm_compute. discriminate.
Qed.

(** C8, amended. On a population in which every person has both parent
    references or none, listing a child's mother as father and the father as
    mother changes nothing: [joint_probability] returns the same number for
    every hypothesis, the accumulated masses are the same, and [main]
    returns the same distributions. *)
Theorem swap_parents_unchanged child people :
  well_formed people →
  (∀ one_gene two_genes have_trait,
     joint_probability (swap_parents_of child people) one_gene two_genes
       have_trait
     = joint_probability people one_gene two_genes have_trait) ∧
  main_loop (swap_parents_of child people)
    (initial (swap_parents_of child people))
  = main_loop people (initial people) ∧
  main (swap_parents_of child people) = main people.
Proof.
  intros Hwf.
  assert (Hjp : ∀ one_gene two_genes have_trait,
     joint_probability (swap_parents_of child people) one_gene two_genes
       have_trait
     = joint_probability people one_gene two_genes have_trait).
  { intros. by apply joint_probability_swap. }
  assert (Hfails : ∀ names have_trait,
     fails_evidence (swap_parents_of child people) names have_trait
     = fails_evidence people names have_trait).
  { intros names have_trait. apply any_conflict_swap. }
  split; [exact Hjp|]. split.
  - unfold initial. rewrite keys_swap_parents_of.
    apply main_loop_congruence; [apply keys_swap_parents_of|done|done].
  - apply main_congruence; [apply keys_swap_parents_of|done|done].
Qed.

(** C8 (amended) on the sample family: Harry's parents exchanged. *)
Lemma swap_parents_unchanged_witness :
  well_formed sample_family ∧
  (∀ one_gene two_genes have_trait,
     joint_probability (swap_parents_of "Harry" sample_family) one_gene
       two_genes have_trait
     = joint_probability sample_family one_gene two_genes have_trait) ∧
  main_loop (swap_parents_of "Harry" sample_family)
    (initial (swap_parents_of "Harry" sample_family))
  = main_loop sample_family (initial sample_family) ∧
  main (swap_parents_of "Harry" sample_family) = main sample_family.
Proof.
  split; [exact sample_family_well_formed|].
  exact (swap_parents_unchanged "Harry" sample_family sample_family_well_formed).
Defined.

(** ** The evaluator is total on paired parents *)

(** C9. On a population in which every person has both parent references or
    none, [joint_probability] always returns: whatever the values (bound or
    unbound) the locals [from_mother] and [from_father] hold when a person's
    iteration starts, the iteration does not raise and what it appends does
    not depend on them, and so the whole call yields a number; the read of
    an unassigned transmission probability cannot happen. *)
Theorem joint_probability_total people one_gene two_genes have_trait :
  well_formed people →
  (∀ st person, person ∈ keys people →
     ∃ fm ff,
       joint_probability_person people one_gene two_genes have_trait st person
       = Ok {| probabilites :=
                 probabilites st
                   ++ appended people one_gene two_genes have_trait person;
               from_mother := fm; from_father := ff |}) ∧
  ∃ p, joint_probability people one_gene two_genes have_trait = Ok p.
Proof.
  intros Hwf. split.
  - intros st person Hin.
    destruct (getitem_keys people person Hin) as [r Hr].
    apply joint_probability_person_paired.
    + intros r' Hr'. by eapply well_formed_getitem.
    + rewrite Hr. eauto.
  - rewrite joint_probability_well_formed by done. eauto.
Qed.

(** C9 on the sample family. *)
Lemma joint_probability_total_witness :
  well_formed sample_family ∧
  (∀ st person, person ∈ keys sample_family →
     ∃ fm ff,
       joint_probability_person sample_family {["Harry"%string]}
         {["James"%string]} {["James"%string]} st person
       = Ok {| probabilites :=
                 probabilites st
                   ++ appended sample_family {["Harry"%string]}
                        {["James"%string]} {["James"%string]} person;
               from_mother := fm; from_father := ff |}) ∧
  ∃ p, joint_probability sample_family {["Harry"%string]} {["James"%string]}
         {["James"%string]} = Ok p.
Proof.
  split; [exact sample_family_well_formed|].
  exact (joint_probability_total sample_family {["Harry"%string]}
           {["James"%string]} {["James"%string]} sample_family_well_formed).
Defined.

(** ** Gene mass and trait mass *)

Section update_binary64.
Import PrimFloat.

(** C10 as stated fails for the floats of the program.  The run for a
    single person without parents and without evidence initialises the
    buckets and makes six calls of [update], each with disjoint gene sets;
    afterwards gene[0] + gene[1] + gene[2] is 1.0 and trait[True] +
    trait[False] is 0.9999999999999999, and Python's [==] on the two sums
    is false. *)
Lemma update_mass_balance_counterexample :
  let calls := B64.calls_of lone_person in
  let probabilities := B64.updates calls (B64.initial lone_person) in
  length calls = 6%nat ∧
  Forall (λ c, c.1.1.1 ## c.1.1.2) calls ∧
  B64.main_loop lone_person (B64.initial lone_person) = Ok probabilities ∧
  ∃ d,
    probabilities = [("Harry"%string, d)] ∧
    (B64.gene_0 d + B64.gene_1 d + B64.gene_2 d)%float = 1%float ∧
    (B64.trait_True d + B64.trait_False d)%float = 0.9999999999999999%float ∧
    (B64.gene_0 d + B64.gene_1 d + B64.gene_2 d
     =? B64.trait_True d + B64.trait_False d)%float = false.
Proof.
  cbv zeta. split; [reflexivity|]. split.
  { apply (bool_decide_unpack _). vm_compute. exact I. }
  split; [vm_compute; reflexivity|].
  eexists. split; [vm_compute; reflexivity|].
  repeat split; vm_compute; reflexivity.
Qed.

(** C10, amended.  One call of [update] keeps the persons and, for each of
    them, adds [p] by one binary64 addition to the single gene bucket
    [updated_gene] and to the single trait bucket given by membership in
    [have_trait], every other bucket keeping its value bit for bit (the
    gene sets need not be disjoint).  The two totals receive the same
    addends, so that they are equal when the additions are exact (the
    rational reading of the same function); with the rounded additions of
    the program they agree only up to rounding. *)
Theorem update_mass_balance :
  (∀ probabilities one_gene two_genes have_trait p i person d,
     probabilities !! i = Some (person, d) →
     ∃ d',
       B64.update probabilities one_gene two_genes have_trait p !! i
       = Some (person, d') ∧
       (∀ g, B64.gene_of d' g
             = if decide (g = updated_gene one_gene two_genes person)
               then (B64.gene_of d g + p)%float else B64.gene_of d g) ∧
       (∀ t, B64.trait_of d' t
             = if decide (t = bool_decide (person ∈ have_trait))
               then (B64.trait_of d t + p)%float else B64.trait_of d t)) ∧
  (∀ people calls,
     keys (B64.updates calls (B64.initial people)) = keys people) ∧
  (∀ probabilities one_gene two_genes have_trait p i person d,
     probabilities !! i = Some (person, d) →
     ∃ d',
       update probabilities one_gene two_genes have_trait p !! i
       = Some (person, d') ∧
       (∀ g, gene_of d' g
             = if decide (g = updated_gene one_gene two_genes person)
               then gene_of d g + p else gene_of d g) ∧
       (∀ t, trait_of d' t
             = if decide (t = bool_decide (person ∈ have_trait))
               then trait_of d t + p else trait_of d t)) ∧
  (∀ people calls,
     keys (updates calls (initial people)) = keys people ∧
     ∀ person d, (person, d) ∈ updates calls (initial people) →
       gene_0 d + gene_1 d + gene_2 d == trait_True d + trait_False d).
Proof.
  split; [|split; [|split]].
  - intros probabilities one_gene two_genes have_trait p i person d Hi.
    exists (B64.update_person one_gene two_genes have_trait p person d).
    split.
    + unfold B64.update.
      change (map ?f ?l) with (f <$> l). rewrite list_lookup_fmap, Hi.
      reflexivity.
    + rewrite update_person_buckets_binary64. split.
      * intros g.
        by rewrite gene_of_add_trait_binary64, gene_of_add_gene_binary64.
      * intros t.
        by rewrite trait_of_add_trait_binary64, trait_of_add_gene_binary64.
  - intros people calls.
    by rewrite keys_updates_binary64, keys_initial_binary64.
  - intros probabilities one_gene two_genes have_trait p i person d Hi.
    exists (update_person one_gene two_genes have_trait p person d).
    split.
    + unfold update.
      change (map ?f ?l) with (f <$> l). rewrite list_lookup_fmap, Hi.
      reflexivity.
    + rewrite update_person_buckets. split.
      * intros g. by rewrite gene_of_add_trait, gene_of_add_gene.
      * intros t. by rewrite trait_of_add_trait, trait_of_add_gene.
  - intros people calls.
    assert (Hinv : keys (updates calls (initial people)) = keys people ∧
      Forall (λ kv, gene_mass kv.2 == trait_mass kv.2)
        (updates calls (initial people))).
    { unfold updates.
      generalize (keys_initial people) (initial_balanced people).
      generalize (initial people) as probabilities.
      induction calls as [|[[[one_gene two_genes] have_trait] p] calls IH];
        intros probabilities Hkeys Hbal; simpl; [done|].
      apply IH; [by rewrite keys_update | by apply update_balanced]. }
    destruct Hinv as [Hkeys Hbal]. split; [done|].
    intros person d Hd. rewrite Forall_forall in Hbal.
    exact (Hbal _ Hd).
Qed.

(** C10, amended, on the sample family: the first person after one call of
    the binary64 [update]. *)
Lemma update_mass_balance_witness :
  ∃ d',
    B64.update (B64.initial sample_family) {["Harry"%string]}
      {["James"%string]} {["James"%string]} 0.5%float !! 0%nat
    = Some ("Harry"%string, d') ∧
    (∀ g, B64.gene_of d' g
          = if decide (g = updated_gene {["Harry"%string]} {["James"%string]}
                             "Harry")
            then (B64.gene_of B64.zero_marginals g + 0.5)%float
            else B64.gene_of B64.zero_marginals g) ∧
    (∀ t, B64.trait_of d' t
          = if decide (t = bool_decide ("Harry"%string
                                        ∈ ({["James"%string]} : gset string)))
            then (B64.trait_of B64.zero_marginals t + 0.5)%float
            else B64.trait_of B64.zero_marginals t).
Proof.
  exact (proj1 update_mass_balance (B64.initial sample_family)
           {["Harry"%string]} {["James"%string]} {["James"%string]} 0.5%float
           0%nat "Harry"%string B64.zero_marginals eq_refl).
Defined.

End update_binary64.

(** * Further properties of the code *)

(** ** Dictionary assignment *)

Lemma getitem_setitem_eq {V : Type} (d : list (string * V)) (k : string) (v : V) :
  getitem (setitem d k v) k = Ok v.
Proof.
  induction d as [|[k' v'] d IH]; simpl.
  - by rewrite decide_True.
  - destruct (decide (k' = k)) as [->|Hne]; simpl.
    + by rewrite decide_True.
    + by rewrite decide_False.
Qed.

Lemma getitem_setitem_ne {V : Type} (d : list (string * V)) (k k' : string) (v : V) :
  k ≠ k' → getitem (setitem d k v) k' = getitem d k'.
Proof.
  intros Hne. induction d as [|[k0 v0] d IH]; simpl.
  - by rewrite decide_False.
  - destruct (decide (k0 = k)) as [->|Hk0]; simpl.
    + by rewrite !decide_False.
    + by rewrite IH.
Qed.

Lemma keys_setitem {V : Type} (d : list (string * V)) (k : string) (v : V) :
  keys (setitem d k v) = if decide (k ∈ keys d) then keys d else keys d ++ [k].
Proof.
  induction d as [|[k0 v0] d IH].
  - cbn. case_decide as Hin; [by apply elem_of_nil in Hin|done].
  - cbn [setitem]. destruct (decide (k0 = k)) as [->|Hk0].
    + cbn. rewrite decide_True; [done|]. left.
    + change (keys ((k0, v0) :: setitem d k v))
        with (k0 :: keys (setitem d k v)).
      change (keys ((k0, v0) :: d)) with (k0 :: keys d).
      rewrite IH. destruct (decide (k ∈ keys d)) as [Hin|Hin].
      * rewrite decide_True; [done|]. by right.
      * rewrite decide_False; [done|].
        intros [->|?]%elem_of_cons; done.
Qed.

Lemma getitem_KeyError {V : Type} (d : list (string * V)) (k : string) :
  k ∉ keys d → getitem d k = Raise KeyError.
Proof.
  induction d as [|[k0 v0] d IH]; simpl; [done|].
  intros Hk. rewrite decide_False.
  - apply IH. intros Hin. apply Hk. by right.
  - intros ->. apply Hk. left.
Qed.

Lemma load_data_snoc rows row :
  load_data (rows ++ [row])
  = setitem (load_data rows) (row_name row) (record_of_row row).
Proof. unfold load_data. by rewrite fold_left_app. Qed.

Lemma last_row_snoc rows row k :
  last_row (rows ++ [row]) k
  = if decide (row_name row = k) then Some row else last_row rows k.
Proof.
  unfold last_row. rewrite reverse_snoc. simpl.
  destruct (decide (row_name row = k)) as [Hk|Hk].
  - by rewrite bool_decide_eq_true_2.
  - by rewrite bool_decide_eq_false_2.
Qed.

Lemma keys_load_data rows :
  keys (load_data rows) = reverse (remove_dups (reverse (map row_name rows))).
Proof.
  induction rows as [|row rows IH] using rev_ind; [reflexivity|].
  rewrite load_data_snoc, keys_setitem, IH, map_app.
  cbn [map]. rewrite reverse_snoc. cbn [remove_dups].
  unfold decide_rel.
  destruct (list_elem_of_dec (row_name row) (reverse (map row_name rows)))
    as [Hin|Hin].
  - rewrite decide_True; [done|].
    by rewrite elem_of_reverse, elem_of_remove_dups.
  - rewrite decide_False.
    + by rewrite reverse_cons.
    + by rewrite elem_of_reverse, elem_of_remove_dups.
Qed.

Lemma load_data_last_row_wins_aux (rows : list Row) :
  NoDup (keys (load_data rows)) ∧
  ∀ k, getitem (load_data rows) k
       = match last_row rows k with
         | Some row => Ok (record_of_row row)
         | None => Raise KeyError
         end.
Proof.
  split.
  - rewrite keys_load_data, reverse_Permutation. apply NoDup_remove_dups.
  - induction rows as [|row rows IH] using rev_ind; [done|].
    intros k. rewrite load_data_snoc, last_row_snoc.
    destruct (decide (row_name row = k)) as [<-|Hk].
    + apply getitem_setitem_eq.
    + rewrite getitem_setitem_ne by done. apply IH.
Qed.

(** X1. [load_data] returns a dictionary: its keys are the names of the
    rows, each once, in the order of their first row; indexing it by a name
    gives the record of the last row with that name and raises [KeyError]
    for a name no row carries; a record is stored under its own name. *)
Theorem load_data_last_row_wins (rows : list Row) :
  NoDup (keys (load_data rows)) ∧
  keys (load_data rows) = reverse (remove_dups (reverse (map row_name rows))) ∧
  (∀ k, k ∈ keys (load_data rows) ↔ ∃ row, row ∈ rows ∧ row_name row = k) ∧
  (∀ k, getitem (load_data rows) k
        = match last_row rows k with
          | Some row => Ok (record_of_row row)
          | None => Raise KeyError
          end) ∧
  (∀ k r, getitem (load_data rows) k = Ok r → name r = k).
Proof.
  destruct (load_data_last_row_wins_aux rows) as (Hnd & Hget).
  split; [done|]. split; [apply keys_load_data|]. split; [|split; [done|]].
  - intros k. rewrite keys_load_data, elem_of_reverse, elem_of_remove_dups,
      elem_of_reverse, elem_of_map.
    split; intros (row & ? & ?); exists row; done.
  - intros k r. rewrite Hget. unfold last_row.
    destruct (find _ _) as [row|] eqn:Hfind; [|done].
    apply find_some in Hfind as [_ Hk%bool_decide_eq_true].
    intros [= <-]. done.
Qed.

(** X2. [load_data] validates nothing: the loaded population has paired
    parents exactly when, for every name, the last row with that name has the
    mother and father fields both blank or both filled. *)
Theorem load_data_well_formed (rows : list Row) :
  well_formed (load_data rows)
  ↔ ∀ k row, last_row rows k = Some row →
      (row_mother row = ""%string ↔ row_father row = ""%string).
Proof.
  assert (Hpaired : ∀ row,
    parents_paired (record_of_row row) = true
    ↔ (row_mother row = ""%string ↔ row_father row = ""%string)).
  { intros row. unfold parents_paired, record_of_row, or_None. simpl.
    repeat case_decide; split; try done; tauto. }
  destruct (load_data_last_row_wins_aux rows) as (Hnd & Hget).
  unfold well_formed. rewrite Forall_forall. split.
  - intros Hwf k row Hlast. apply Hpaired.
    apply (Hwf (k, record_of_row row)), getitem_elem.
    by rewrite Hget, Hlast.
  - intros Hrows [k r] Hin. simpl.
    apply getitem_NoDup in Hin; [|done]. rewrite Hget in Hin.
    destruct (last_row rows k) as [row|] eqn:Hlast; [|done].
    injection Hin as <-. apply Hpaired. by eapply Hrows.
Qed.

(** ** More on [joint_probability] *)

Lemma appended_items_filter people one_gene two_genes have_trait l :
  (∀ kv, kv ∈ l → getitem people kv.1 = Ok kv.2) →
  flat_map (appended people one_gene two_genes have_trait) (keys l)
  = map (λ kv, person_factor one_gene two_genes have_trait kv.1 kv.2)
        (filter (λ kv, kv.1 ∉ one_gene ∨ kv.1 ∉ two_genes) l).
Proof.
  induction l as [|[k v] l IH]; intros Hall; [done|].
  cbn [keys map flat_map fst]. fold (keys l).
  rewrite IH by (intros kv Hkv; apply Hall; by right).
  rewrite filter_cons. unfold appended at 1. simpl.
  pose proof (Hall (k, v) ltac:(left)) as Hk. simpl in Hk. rewrite Hk.
  by case_decide.
Qed.

(** X3. If some persons are put in both [one_gene] and [two_genes], they
    are left out: on a dictionary with paired parents [joint_probability]
    returns the product of the per-person terms of the other persons only
    (so a contradictory hypothesis does not get probability zero). *)
Theorem joint_probability_skips_overlap people one_gene two_genes have_trait :
  NoDup (keys people) → well_formed people →
  ∃ p, joint_probability people one_gene two_genes have_trait = Ok p ∧
       p == Qprod (map (λ kv, spec_person_probability one_gene two_genes
                                have_trait kv.1 kv.2)
                       (filter (λ kv, kv.1 ∉ one_gene ∨ kv.1 ∉ two_genes)
                               people)).
Proof.
  intros Hnd Hwf. eexists. split.
  { by apply joint_probability_well_formed. }
  rewrite fold_left_Qmult, appended_items_filter.
  2: { intros [k v] Hkv. by apply getitem_NoDup. }
  rewrite Qmult_1_l. apply Qprod_Forall2.
  unfold well_formed in Hwf. clear Hnd.
  induction Hwf as [|[k v] people Hkv _ IH]; [constructor|].
  rewrite filter_cons. case_decide; [|done].
  simpl. constructor; [|done]. by apply person_factor_spec.
Qed.

Lemma transmission_cases one_gene two_genes parent :
  transmission one_gene two_genes parent = 0.5
  ∨ transmission one_gene two_genes parent = 1 - PROBS_mutation
  ∨ transmission one_gene two_genes parent = PROBS_mutation.
Proof. unfold transmission. repeat case_decide; auto. Qed.

Lemma person_factor_bounds one_gene two_genes have_trait person r :
  0 < person_factor one_gene two_genes have_trait person r
  ∧ person_factor one_gene two_genes have_trait person r <= 1.
Proof.
  unfold person_factor.
  destruct (mother r) as [m|], (father r) as [f|];
    destruct (person_genes_of one_gene two_genes person),
      (bool_decide (person ∈ have_trait));
    try (split; [reflexivity|discriminate]);
    destruct (transmission_cases one_gene two_genes m) as [->|[->| ->]],
      (transmission_cases one_gene two_genes f) as [->|[->| ->]];
    (split; [reflexivity|discriminate]).
Qed.

Lemma Qprod_bounds (l : list Q) :
  Forall (λ x, 0 < x ∧ x <= 1) l → 0 < Qprod l ∧ Qprod l <= 1.
Proof.
  induction 1 as [|x l [Hx0 Hx1] _ [IH0 IH1]]; simpl.
  - split; [reflexivity|discriminate].
  - split; nra.
Qed.

Lemma joint_value_bounds people h :
  well_formed people →
  joint_probability people h.1.2 h.2 h.1.1 = Ok (joint_value people h) ∧
  0 < joint_value people h ∧ joint_value people h <= 1.
Proof.
  intros Hwf. unfold joint_value.
  rewrite joint_probability_well_formed by done. split; [done|].
  rewrite fold_left_Qmult, Qmult_1_l. apply Qprod_bounds.
  induction (keys people) as [|k ks IH]; simpl; [constructor|].
  apply Forall_app. split; [|done].
  unfold appended. case_decide; [|constructor].
  destruct (getitem people k); constructor; [|constructor].
  apply person_factor_bounds.
Qed.

Section joint_probability_binary64.
Import PrimFloat.

Lemma child_inj i j : child i = child j → i = j.
Proof.
  unfold child. intros H. apply (inj (String.app "child")) in H.
  by apply (inj pretty) in H.
Qed.

Lemma elem_of_children n s : s ∈ children n ↔ ∃ i, s = child i ∧ (i < n)%nat.
Proof.
  unfold children. rewrite elem_of_list_to_set.
  change (map child (seq 0 n)) with (child <$> seq 0 n).
  rewrite list_elem_of_fmap. split.
  - intros (i & -> & Hi). apply elem_of_seq in Hi. exists i. split; [done|lia].
  - intros (i & -> & Hi). exists i. split; [done|]. apply elem_of_seq. lia.
Qed.

Lemma founder_not_child n s :
  s = "Lily"%string ∨ s = "James"%string → s ∉ children n.
Proof.
  intros Hs (i & Hi & _)%elem_of_children.
  unfold child, String.app in Hi. destruct Hs; congruence.
Qed.

Lemma keys_large_family n :
  keys (large_family n) = "Lily"%string :: "James"%string :: map child (seq 0 n).
Proof.
  unfold keys, large_family. simpl. do 2 f_equal. by rewrite map_map.
Qed.

Lemma large_family_NoDup n : NoDup (keys (large_family n)).
Proof.
  rewrite keys_large_family.
  assert (Hchildren : NoDup (map child (seq 0 n))).
  { apply (NoDup_fmap_2_strong child); [|apply NoDup_seq].
    intros i j _ _. apply child_inj. }
  assert (Hfounder : ∀ s, s = "Lily"%string ∨ s = "James"%string →
                          s ∉ map child (seq 0 n)).
  { intros s Hs Hin. apply (founder_not_child n s Hs).
    unfold children. by apply elem_of_list_to_set. }
  repeat (apply NoDup_cons; split); [|by apply Hfounder; right|done].
  intros [?|Hin]%elem_of_cons; [done|]. revert Hin. apply Hfounder. by left.
Qed.

Lemma large_family_well_formed n : well_formed (large_family n).
Proof.
  unfold well_formed, large_family. apply Forall_app. split.
  - by repeat constructor.
  - apply Forall_fmap, Forall_true. by intros i.
Qed.

Lemma getitem_child n i :
  (i < n)%nat → getitem (large_family n) (child i) = Ok (child_record i).
Proof.
  intros Hi. apply getitem_NoDup; [apply large_family_NoDup|].
  unfold large_family. apply elem_of_app. right.
  apply (list_elem_of_fmap_2 (λ i, (child i, child_record i))).
  apply elem_of_seq. lia.
Qed.

Lemma joint_probability_person_founder n st person :
  person = "Lily"%string ∨ person = "James"%string →
  B64.joint_probability_person (large_family n) ∅ (children n) ∅ st person
  = Ok {| B64.probabilites :=
            B64.probabilites st
              ++ [1 * (B64.PROBS_gene G0 * B64.PROBS_trait G0 false)]%float;
          B64.from_mother := B64.from_mother st;
          B64.from_father := B64.from_father st |}.
Proof.
  intros Hp. pose proof (founder_not_child n person Hp) as Hnot.
  unfold B64.joint_probability_person, person_genes_of.
  rewrite (decide_False (P := person ∈ children n)) by done.
  rewrite (decide_False (P := person ∈ (∅ : gset string))) by set_solver.
  rewrite decide_True by (left; set_solver).
  rewrite bool_decide_eq_false_2 by set_solver.
  destruct Hp as [-> | ->]; reflexivity.
Qed.

Lemma joint_probability_person_child n i st :
  (i < n)%nat →
  B64.joint_probability_person (large_family n) ∅ (children n) ∅ st (child i)
  = Ok {| B64.probabilites :=
            B64.probabilites st
              ++ [1 * B64.inherited G2 B64.PROBS_mutation B64.PROBS_mutation
                  * B64.PROBS_trait G2 false]%float;
          B64.from_mother := Some B64.PROBS_mutation;
          B64.from_father := Some B64.PROBS_mutation |}.
Proof.
  intros Hi.
  assert (Hin : child i ∈ children n) by (apply elem_of_children; eauto).
  unfold B64.joint_probability_person, person_genes_of.
  rewrite (decide_True (P := child i ∈ children n)) by done.
  rewrite decide_True by (left; set_solver).
  rewrite bool_decide_eq_false_2 by set_solver.
  rewrite getitem_child by done. simpl.
  unfold B64.transmission.
  rewrite !(decide_False (P := _ ∈ (∅ : gset string))) by set_solver.
  rewrite !decide_False by (apply founder_not_child; auto).
  reflexivity.
Qed.

Lemma joint_probability_children n (l : list nat) st :
  Forall (λ i, (i < n)%nat) l →
  ∃ st',
    foldM (B64.joint_probability_person (large_family n) ∅ (children n) ∅) st
      (map child l) = Ok st' ∧
    B64.probabilites st'
    = B64.probabilites st
        ++ repeat (1 * B64.inherited G2 B64.PROBS_mutation B64.PROBS_mutation
                   * B64.PROBS_trait G2 false)%float (length l).
Proof.
  intros Hl. revert st. induction Hl as [|i l Hi _ IH]; intros st.
  - exists st. split; [done|]. simpl. by rewrite app_nil_r.
  - cbn [map foldM length repeat].
    rewrite joint_probability_person_child by done.
    cbn [mbind result_bind].
    destruct (IH {| B64.probabilites :=
                      B64.probabilites st
                        ++ [1 * B64.inherited G2 B64.PROBS_mutation
                                  B64.PROBS_mutation
                            * B64.PROBS_trait G2 false]%float;
                    B64.from_mother := Some B64.PROBS_mutation;
                    B64.from_father := Some B64.PROBS_mutation |})
      as (st' & -> & Hst').
    exists st'. split; [done|]. rewrite Hst'. cbn [B64.probabilites].
    by rewrite <- app_assoc.
Qed.

Lemma fold_left_mul_zero (c : float) (k : nat) :
  (0 * c)%float = 0%float → fold_left mul (repeat c k) 0%float = 0%float.
Proof.
  intros Hc. induction k as [|k IH]; simpl; [done|]. by rewrite Hc.
Qed.

(** X4. In binary64 [joint_probability] can return exactly 0.0 on a
    population with paired parents, although the product of the factors is
    strictly positive: for two parents without the gene and without
    evidence and [n >= 73] children of theirs, each supposed to carry two
    copies and not to show the trait, the running product underflows. *)
Theorem joint_probability_underflow (n : nat) :
  (73 ≤ n)%nat →
  well_formed (large_family n) ∧
  NoDup (keys (large_family n)) ∧
  B64.joint_probability (large_family n) ∅ (children n) ∅ = Ok 0%float ∧
  ∃ p, joint_probability (large_family n) ∅ (children n) ∅ = Ok p ∧ 0 < p.
Proof.
  intros Hn.
  split; [apply large_family_well_formed|].
  split; [apply large_family_NoDup|]. split.
  - unfold B64.joint_probability. rewrite keys_large_family.
    cbn [foldM].
    rewrite joint_probability_person_founder by auto.
    cbn [mbind result_bind].
    rewrite joint_probability_person_founder by auto.
    cbn [mbind result_bind B64.probabilites B64.from_mother B64.from_father].
    destruct (joint_probability_children n (seq 0 n)
                {| B64.probabilites :=
                     ([] ++ [1 * (B64.PROBS_gene G0
                                  * B64.PROBS_trait G0 false)]%float)
                     ++ [1 * (B64.PROBS_gene G0
                              * B64.PROBS_trait G0 false)]%float;
                   B64.from_mother := None; B64.from_father := None |})
      as (st' & -> & Hst').
    { apply Forall_forall. intros i Hi. apply elem_of_seq in Hi. lia. }
    cbn [mbind result_bind]. f_equal.
    rewrite Hst', length_seq. cbn [B64.probabilites].
    replace n with (73 + (n - 73))%nat by lia.
    rewrite repeat_app, !fold_left_app.
    transitivity
      (fold_left mul
         (repeat (1 * B64.inherited G2 B64.PROBS_mutation B64.PROBS_mutation
                  * B64.PROBS_trait G2 false)%float (n - 73)) 0%float).
    + f_equal; vm_compute; reflexivity.
    + apply fold_left_mul_zero. reflexivity.
  - exists (joint_value (large_family n) (∅, ∅, children n)).
    destruct (joint_value_bounds (large_family n) (∅, ∅, children n)
                (large_family_well_formed n)) as (Hjp & Hpos & _).
    split; [exact Hjp|exact Hpos].
Qed.

(** X4 for 73 children; with 72 the value is still 1.34e-321. *)
Lemma joint_probability_underflow_witness :
  (well_formed (large_family 73) ∧
   NoDup (keys (large_family 73)) ∧
   B64.joint_probability (large_family 73) ∅ (children 73) ∅ = Ok 0%float ∧
   ∃ p, joint_probability (large_family 73) ∅ (children 73) ∅ = Ok p ∧ 0 < p) ∧
  ∃ p, B64.joint_probability (large_family 72) ∅ (children 72) ∅ = Ok p ∧
       (0 <? p)%float = true.
Proof.
  split.
  - exact (joint_probability_underflow 73 (le_n 73)).
  - eexists. split; vm_compute; reflexivity.
Defined.

Lemma joint_probability_person_alike people one_gene two_genes have_trait
    (st : B64.locals) (st' : locals) (person : string) :
  (is_Some (B64.from_mother st) ↔ is_Some (from_mother st')) →
  (is_Some (B64.from_father st) ↔ is_Some (from_father st')) →
  match B64.joint_probability_person people one_gene two_genes have_trait
          st person,
        joint_probability_person people one_gene two_genes have_trait
          st' person with
  | Ok s, Ok s' =>
      (is_Some (B64.from_mother s) ↔ is_Some (from_mother s')) ∧
      (is_Some (B64.from_father s) ↔ is_Some (from_father s'))
  | Raise e, Raise e' => e = e'
  | _, _ => False
  end.
Proof.
  intros Hm Hf.
  unfold B64.joint_probability_person, joint_probability_person.
  case_decide; [|done].
  destruct (getitem people person) as [r|e]; [|done].
  cbn [mbind result_bind].
  case_decide; [|done].
  destruct st as [l fm ff], st' as [l' fm' ff'].
  simpl in Hm, Hf.
  destruct (mother r), (father r), fm, ff, fm', ff'; simpl;
    rewrite ?is_Some_alt in *; simpl; tauto.
Qed.

(** X17. Whether [joint_probability] returns or raises, and what it
    raises, does not depend on the arithmetic: the binary64 function and its
    exact reading return for the same arguments and raise the same
    exception for the same arguments. *)
Theorem joint_probability_raises_alike people one_gene two_genes have_trait :
  match B64.joint_probability people one_gene two_genes have_trait,
        joint_probability people one_gene two_genes have_trait with
  | Ok _, Ok _ => True
  | Raise e, Raise e' => e = e'
  | _, _ => False
  end.
Proof.
  unfold B64.joint_probability, joint_probability.
  assert (Hloop : ∀ (l : list string) (st : B64.locals) (st' : locals),
    (is_Some (B64.from_mother st) ↔ is_Some (from_mother st')) →
    (is_Some (B64.from_father st) ↔ is_Some (from_father st')) →
    match foldM (B64.joint_probability_person people one_gene two_genes
                   have_trait) st l,
          foldM (joint_probability_person people one_gene two_genes
                   have_trait) st' l with
    | Ok _, Ok _ => True
    | Raise e, Raise e' => e = e'
    | _, _ => False
    end).
  { induction l as [|person l IH]; intros st st' Hm Hf; simpl; [done|].
    pose proof (joint_probability_person_alike people one_gene two_genes
                  have_trait st st' person Hm Hf) as Hstep.
    destruct (B64.joint_probability_person _ _ _ _ st person) as [s|e],
      (joint_probability_person _ _ _ _ st' person) as [s'|e'];
      simpl; try done.
    destruct Hstep as [Hm' Hf']. by apply IH. }
  specialize (Hloop (keys people)
                {| B64.probabilites := []; B64.from_mother := None;
                   B64.from_father := None |}
                {| probabilites := []; from_mother := None;
                   from_father := None |}).
  simpl in Hloop.
  destruct (foldM (B64.joint_probability_person _ _ _ _) _ _),
    (foldM (joint_probability_person _ _ _ _) _ _); simpl; try done;
    apply Hloop; done.
Qed.

End joint_probability_binary64.

Lemma find_split {A : Type} (f : A → bool) (l : list A) (x : A) :
  find f l = Some x →
  ∃ pre post, l = pre ++ x :: post ∧ f x = true ∧ Forall (λ y, f y = false) pre.
Proof.
  induction l as [|y l IH]; simpl; [done|].
  destruct (f y) eqn:Hy.
  - intros [= ->]. exists [], l. split; [done|]. split; [done|constructor].
  - intros (pre & post & -> & Hx & Hpre)%IH.
    exists (y :: pre), post. split; [done|]. split; [done|by constructor].
Qed.

Lemma find_all_false {A : Type} (f : A → bool) (l : list A) :
  find f l = None → Forall (λ y, f y = false) l.
Proof.
  induction l as [|y l IH]; simpl; [constructor|].
  destruct (f y) eqn:Hy; [done|]. intros Hl. constructor; auto.
Qed.

Lemma joint_probability_person_skip people one_gene two_genes have_trait st person :
  person ∈ keys people →
  reads_transmission people one_gene two_genes person = false →
  ∃ st', joint_probability_person people one_gene two_genes have_trait st person
         = Ok st' ∧
         from_mother st' = from_mother st ∧ from_father st' = from_father st.
Proof.
  intros [r Hr]%getitem_keys. unfold reads_transmission, joint_probability_person.
  rewrite Hr. case_decide as Hguard.
  - rewrite bool_decide_eq_true_2 by done. simpl.
    intros Hno%bool_decide_eq_false. rewrite decide_False by done.
    eexists. split; [reflexivity|done].
  - intros _. eauto.
Qed.

Lemma joint_probability_loop_skip people one_gene two_genes have_trait ks st :
  ks ⊆ keys people →
  Forall (λ k, reads_transmission people one_gene two_genes k = false) ks →
  ∃ st', foldM (joint_probability_person people one_gene two_genes have_trait)
           st ks = Ok st' ∧
         from_mother st' = from_mother st ∧ from_father st' = from_father st.
Proof.
  intros Hks Hall. revert st Hks.
  induction Hall as [|k ks Hk _ IH]; intros st Hks; simpl; [eauto|].
  destruct (joint_probability_person_skip people one_gene two_genes have_trait
              st k) as (st1 & -> & Hm & Hf); [set_solver|done|].
  simpl. destruct (IH st1) as (st2 & -> & Hm2 & Hf2); [set_solver|].
  eexists. split; [reflexivity|]. split; congruence.
Qed.

Lemma joint_probability_person_bound people one_gene two_genes have_trait st person :
  person ∈ keys people →
  is_Some (from_mother st) → is_Some (from_father st) →
  ∃ st', joint_probability_person people one_gene two_genes have_trait st person
         = Ok st' ∧
         is_Some (from_mother st') ∧ is_Some (from_father st').
Proof.
  intros [r Hr]%getitem_keys [a Ha] [b Hb].
  unfold joint_probability_person. rewrite Hr.
  destruct st as [ps fm ff]. simpl in *. subst.
  case_decide; [|eauto]. simpl.
  case_decide; [|eauto].
  destruct (mother r), (father r); simpl; eauto.
Qed.

Lemma joint_probability_loop_bound people one_gene two_genes have_trait ks st :
  ks ⊆ keys people →
  is_Some (from_mother st) → is_Some (from_father st) →
  ∃ st', foldM (joint_probability_person people one_gene two_genes have_trait)
           st ks = Ok st'.
Proof.
  revert st. induction ks as [|k ks IH]; intros st Hks Hm Hf; simpl; [eauto|].
  destruct (joint_probability_person_bound people one_gene two_genes have_trait
              st k) as (st1 & -> & Hm1 & Hf1); [set_solver|done|done|].
  simpl. apply IH; [set_solver|done|done].
Qed.

Lemma joint_probability_person_reads people one_gene two_genes have_trait st person r :
  reads_transmission people one_gene two_genes person = true →
  getitem people person = Ok r →
  from_mother st = None → from_father st = None →
  if parents_paired r
  then ∃ st', joint_probability_person people one_gene two_genes have_trait
                st person = Ok st' ∧
              is_Some (from_mother st') ∧ is_Some (from_father st')
  else joint_probability_person people one_gene two_genes have_trait st person
       = Raise UnboundLocalError.
Proof.
  unfold reads_transmission, joint_probability_person, parents_paired.
  intros Hreads Hr Hm0 Hf0. rewrite Hr in *.
  apply andb_prop in Hreads
    as [Hguard%bool_decide_eq_true Hpar%bool_decide_eq_true].
  rewrite decide_True by done. cbn [mbind result_bind].
  rewrite decide_True by done.
  destruct st as [ps fm ff]. simpl in Hm0, Hf0. subst fm ff.
  destruct (mother r) as [m|], (father r) as [f|]; simpl; eauto.
  by destruct Hpar.
Qed.

Lemma joint_probability_first_reader people one_gene two_genes have_trait :
  match find (reads_transmission people one_gene two_genes) (keys people) with
  | Some person =>
      ∃ r, getitem people person = Ok r ∧
        if parents_paired r
        then ∃ p, joint_probability people one_gene two_genes have_trait = Ok p
        else joint_probability people one_gene two_genes have_trait
             = Raise UnboundLocalError
  | None => ∃ p, joint_probability people one_gene two_genes have_trait = Ok p
  end.
Proof.
  unfold joint_probability.
  set (st0 := {| probabilites := []; from_mother := None; from_father := None |}).
  destruct (find (reads_transmission people one_gene two_genes) (keys people))
    as [person|] eqn:Hfind.
  2: { apply find_all_false in Hfind.
       destruct (joint_probability_loop_skip people one_gene two_genes
                   have_trait (keys people) st0) as (st' & -> & _);
         [done|done|].
       simpl. eauto. }
  apply find_split in Hfind as (pre & post & Hkeys & Hreads & Hpre).
  assert (Hsub : pre ⊆ keys people ∧ person ∈ keys people ∧ post ⊆ keys people).
  { rewrite Hkeys. set_solver. }
  destruct Hsub as (Hsub_pre & Hperson & Hsub_post).
  rewrite Hkeys, foldM_app.
  destruct (joint_probability_loop_skip people one_gene two_genes have_trait
              pre st0) as (st1 & -> & Hm1 & Hf1); [done|done|].
  simpl in Hm1, Hf1. cbn [mbind result_bind foldM].
  destruct (getitem_keys people person Hperson) as [r Hr].
  exists r. split; [done|].
  pose proof (joint_probability_person_reads people one_gene two_genes
                have_trait st1 person r Hreads Hr Hm1 Hf1) as Hstep.
  destruct (parents_paired r) eqn:Hpair.
  - destruct Hstep as (st2 & -> & Hm2 & Hf2). cbn [mbind result_bind].
    destruct (joint_probability_loop_bound people one_gene two_genes
                have_trait post st2) as (st3 & ->); [done|done|done|].
    simpl. eauto.
  - by rewrite Hstep.
Qed.

(** X5. The only exception [joint_probability] can raise is
    [UnboundLocalError], and whether it does is decided by the first person,
    in the order of the dictionary, whose iteration reads the transmission
    probabilities (the person is not in both gene sets and has a parent
    recorded): the call raises exactly when that person has one parent
    recorded and not the other.  Later single-parent records do not raise. *)
Theorem joint_probability_raises people one_gene two_genes have_trait :
  (∀ e, joint_probability people one_gene two_genes have_trait = Raise e →
        e = UnboundLocalError) ∧
  (joint_probability people one_gene two_genes have_trait
   = Raise UnboundLocalError
   ↔ ∃ person r,
       find (reads_transmission people one_gene two_genes) (keys people)
       = Some person ∧
       getitem people person = Ok r ∧ parents_paired r = false).
Proof.
  pose proof (joint_probability_first_reader people one_gene two_genes
                have_trait) as Hfirst.
  destruct (find (reads_transmission people one_gene two_genes) (keys people))
    as [person|].
  - destruct Hfirst as (r & Hr & Hcase).
    destruct (parents_paired r) eqn:Hpair.
    + destruct Hcase as [p ->]. split; [done|]. split; [done|].
      intros (person' & r' & [= <-] & Hr' & Hpair'). congruence.
    + rewrite Hcase. split; [by intros e [= <-]|]. split; [|done].
      intros _. by exists person, r.
  - destruct Hfirst as [p ->]. split; [done|]. split; [done|].
    by intros (? & ? & ? & _).
Qed.

(** ** More on [update] *)

Section update_order_binary64.
Import PrimFloat.

(** X6. In binary64 the calls of [update] cannot be exchanged: the same
    three calls for the same bucket, fed in two orders, leave different
    values ((0.1 + 0.1) + 0.4 is 0.6000000000000001 and (0.1 + 0.4) + 0.1
    is 0.6), so the accumulated state depends on the order in which the
    hypotheses are enumerated. *)
Theorem update_order_matters :
  ∃ d1 d2,
    B64.updates [(∅, ∅, ∅, 0.1); (∅, ∅, ∅, 0.1); (∅, ∅, ∅, 0.4)]%float
      (B64.initial lone_person) = [("Harry"%string, d1)] ∧
    B64.updates [(∅, ∅, ∅, 0.1); (∅, ∅, ∅, 0.4); (∅, ∅, ∅, 0.1)]%float
      (B64.initial lone_person) = [("Harry"%string, d2)] ∧
    B64.gene_0 d1 = 0.6000000000000001%float ∧
    B64.gene_0 d2 = 0.6%float ∧
    (B64.gene_0 d1 =? B64.gene_0 d2)%float = false ∧
    (B64.trait_False d1 =? B64.trait_False d2)%float = false ∧
    d1 ≠ d2.
Proof.
  eexists _, _.
  split; [vm_compute; reflexivity|]. split; [vm_compute; reflexivity|].
  simpl. repeat (split; [vm_compute; reflexivity|]).
  intros Hd. apply (f_equal (λ d, (B64.gene_0 d =? 0.6)%float)) in Hd.
  vm_compute in Hd. discriminate Hd.
Qed.

End update_order_binary64.

Lemma updates_items calls (probabilities : list (string * marginals)) :
  updates calls probabilities
  = map (λ kv, (kv.1,
                fold_left (λ d c, update_person c.1.1.1 c.1.1.2 c.1.2 c.2 kv.1 d)
                          calls kv.2))
        probabilities.
Proof.
  unfold updates. revert probabilities.
  induction calls as [|[[[o t] h] p] calls IH]; intros probabilities; simpl.
  - induction probabilities as [|[k d] l IHl]; simpl; [done|]. by rewrite <- IHl.
  - rewrite IH. unfold update. rewrite map_map. by apply map_ext.
Qed.

Lemma fold_update_person_shares calls person d :
  let d' := fold_left (λ d c, update_person c.1.1.1 c.1.1.2 c.1.2 c.2 person d)
                      calls d in
  (∀ g, gene_of d' g == gene_of d g + Qsum (gene_shares calls person g)) ∧
  (∀ b, trait_of d' b == trait_of d b + Qsum (trait_shares calls person b)).
Proof.
  revert d. induction calls as [|[[[o t] h] p] calls IH]; intros d; simpl.
  { split; intros; unfold Qsum; simpl; ring. }
  destruct (IH (update_person o t h p person d)) as [IHg IHt].
  unfold gene_shares, trait_shares in *. split.
  - intros g. rewrite IHg, update_person_buckets, gene_of_add_trait,
      gene_of_add_gene, filter_cons. simpl.
    destruct (decide (g = updated_gene o t person)) as [->|Hg].
    + rewrite decide_True by done. simpl. ring.
    + rewrite decide_False by done. ring.
  - intros b. rewrite IHt, update_person_buckets, trait_of_add_trait,
      trait_of_add_gene, filter_cons. simpl.
    destruct (decide (b = bool_decide (person ∈ h))) as [->|Hb].
    + rewrite decide_True by done. simpl. ring.
    + rewrite decide_False by done. ring.
Qed.

(** X7. After any sequence of calls of [update], every bucket of every
    person holds what it held before plus the sum of the [p] of exactly
    those calls that selected this bucket for this person. *)
Theorem updates_accumulate_shares
    (calls : list (gset string * gset string * gset string * Q))
    (probabilities : list (string * marginals)) :
  keys (updates calls probabilities) = keys probabilities ∧
  ∀ i person d, probabilities !! i = Some (person, d) →
    ∃ d', updates calls probabilities !! i = Some (person, d') ∧
      (∀ g, gene_of d' g == gene_of d g + Qsum (gene_shares calls person g)) ∧
      (∀ b, trait_of d' b == trait_of d b + Qsum (trait_shares calls person b)).
Proof.
  rewrite updates_items. split.
  - unfold keys. rewrite map_map. by apply map_ext.
  - intros i person d Hi. eexists. split.
    + change (map ?f ?l) with (f <$> l). rewrite list_lookup_fmap, Hi.
      reflexivity.
    + apply fold_update_person_shares.
Qed.

(** ** More on [normalize] *)

Lemma normalize_cons person d l :
  normalize ((person, d) :: l)
  = d' ← normalize_person d; l' ← normalize l; Ok ((person, d') :: l').
Proof.
  unfold normalize. simpl. by destruct (normalize_person d).
Qed.



Section normalize_binary64.
Import PrimFloat.

(** X9. In binary64 [normalize] leaves a person untouched when the two
    computed sums compare equal to 1.0, and only then is a second call
    without effect: [normalize] is not idempotent.  The gene masses 7, 2, 1
    become 0.7, 0.2, 0.1, whose computed sum is 0.9999999999999999, so a
    second call divides again and returns other values. *)
Theorem normalize_twice :
  (∀ d,
     (B64.trait_False d + B64.trait_True d =? 1)%float = true →
     (B64.gene_0 d + B64.gene_1 d + B64.gene_2 d =? 1)%float = true →
     B64.normalize_person d = Ok d) ∧
  (∃ once twice,
     B64.normalize
       [("Harry"%string,
         {| B64.gene_2 := 1; B64.gene_1 := 2; B64.gene_0 := 7;
            B64.trait_True := 7; B64.trait_False := 3 |}%float)]
     = Ok [("Harry"%string, once)] ∧
     B64.normalize [("Harry"%string, once)] = Ok [("Harry"%string, twice)] ∧
     (B64.gene_0 once + B64.gene_1 once + B64.gene_2 once)%float
     = 0.9999999999999999%float ∧
     B64.gene_0 once = 0.7%float ∧
     B64.gene_0 twice = 0.7000000000000001%float ∧
     (B64.gene_0 once =? B64.gene_0 twice)%float = false).
Proof.
  split.
  - intros d Ht Hg. unfold B64.normalize_person.
    rewrite Ht. simpl. by rewrite Hg.
  - eexists _, _.
    split; [vm_compute; reflexivity|]. split; [vm_compute; reflexivity|].
    simpl. repeat split; vm_compute; reflexivity.
Qed.

(** X9 on a distribution whose sums are exact. *)
Lemma normalize_twice_witness :
  B64.normalize_person
    {| B64.gene_2 := 0.25; B64.gene_1 := 0.25; B64.gene_0 := 0.5;
       B64.trait_True := 0.75; B64.trait_False := 0.25 |}%float
  = Ok {| B64.gene_2 := 0.25; B64.gene_1 := 0.25; B64.gene_0 := 0.5;
          B64.trait_True := 0.75; B64.trait_False := 0.25 |}%float.
Proof.
  exact (proj1 normalize_twice
           {| B64.gene_2 := 0.25; B64.gene_1 := 0.25; B64.gene_0 := 0.5;
              B64.trait_True := 0.75; B64.trait_False := 0.25 |}%float
           eq_refl eq_refl).
Defined.

End normalize_binary64.

(** ** The whole run *)

Lemma main_loop_updates people probabilities :
  well_formed people →
  main_loop people probabilities = Ok (updates (calls_of people) probabilities).
Proof.
  intros Hwf. rewrite main_loop_evaluated. unfold calls_of, updates.
  revert probabilities.
  induction (evaluated people) as [|[[h o] t] l IH]; intros pr; [done|].
  destruct (joint_value_bounds people (h, o, t) Hwf) as [Hjp _].
  cbn [fst snd] in Hjp. cbn [foldM accumulate map fold_left fst snd].
  rewrite Hjp. cbn [mbind result_bind]. apply IH.
Qed.

Lemma gene_shares_calls_of people person g :
  gene_shares (calls_of people) person g
  = map (joint_value people)
        (filter (λ h, updated_gene h.1.2 h.2 person = g) (evaluated people)).
Proof.
  unfold gene_shares, calls_of.
  induction (evaluated people) as [|h l IH]; [done|].
  cbn [map]. rewrite !filter_cons. simpl. case_decide; simpl; by rewrite IH.
Qed.

Lemma trait_shares_calls_of people person b :
  trait_shares (calls_of people) person b
  = map (joint_value people)
        (filter (λ h, bool_decide (person ∈ h.1.1) = b) (evaluated people)).
Proof.
  unfold trait_shares, calls_of.
  induction (evaluated people) as [|h l IH]; [done|].
  cbn [map]. rewrite !filter_cons. simpl. case_decide; simpl; by rewrite IH.
Qed.

Lemma main_loop_items people person d :
  well_formed people →
  (person, d) ∈ updates (calls_of people) (initial people) →
  person ∈ keys people ∧
  (∀ g, gene_of d g
        == Qsum (map (joint_value people)
                     (filter (λ h, updated_gene h.1.2 h.2 person = g)
                             (evaluated people)))) ∧
  (∀ b, trait_of d b
        == Qsum (map (joint_value people)
                     (filter (λ h, bool_decide (person ∈ h.1.1) = b)
                             (evaluated people)))).
Proof.
  intros Hwf. rewrite updates_items.
  intros ([k d0] & [= -> ->] & Hin)%elem_of_map.
  unfold initial in Hin. apply elem_of_map in Hin as (k' & [= -> ->] & Hk).
  split; [done|]. simpl.
  destruct (fold_update_person_shares (calls_of people) k' zero_marginals)
    as [Hg Ht].
  split.
  - intros g. rewrite (Hg g), gene_shares_calls_of. destruct g; simpl; ring.
  - intros b. rewrite (Ht b), trait_shares_calls_of. destruct b; simpl; ring.
Qed.

(** X10. On a population with paired parents the loops of [main] run to
    the end, and the accumulated state holds, for every person and every
    gene bucket (trait bucket), the sum of the joint probabilities of the
    evaluated hypotheses that give the person this gene count (trait
    value): the unnormalised marginal. *)
Theorem main_loop_marginals (people : list (string * Person)) :
  well_formed people →
  ∃ probabilities,
    main_loop people (initial people) = Ok probabilities ∧
    keys probabilities = keys people ∧
    ∀ person d, (person, d) ∈ probabilities →
      (∀ g, gene_of d g
            == Qsum (map (joint_value people)
                         (filter (λ h, updated_gene h.1.2 h.2 person = g)
                                 (evaluated people)))) ∧
      (∀ b, trait_of d b
            == Qsum (map (joint_value people)
                         (filter (λ h, bool_decide (person ∈ h.1.1) = b)
                                 (evaluated people)))).
Proof.
  intros Hwf. eexists. split; [by apply main_loop_updates|]. split.
  - rewrite updates_items. unfold keys. rewrite map_map.
    rewrite (map_ext _ fst) by done. apply keys_initial.
  - intros person d Hin. by apply main_loop_items.
Qed.

Lemma Qsum_nonneg (l : list Q) : Forall (λ x, 0 <= x) l → 0 <= Qsum l.
Proof.
  induction 1 as [|x l Hx _ IH]; simpl; [discriminate|]. nra.
Qed.

Lemma Qsum_ge_elem (l : list Q) (x : Q) :
  Forall (λ y, 0 <= y) l → x ∈ l → x <= Qsum l.
Proof.
  induction 1 as [|y l Hy Hl IH]; [by intros ?%elem_of_nil|].
  pose proof (Qsum_nonneg l Hl).
  intros [->|Hin]%elem_of_cons; simpl; [|specialize (IH Hin)]; nra.
Qed.

Lemma joint_values_nonneg people (l : list (gset string * gset string * gset string)) :
  well_formed people → Forall (λ x, 0 <= x) (map (joint_value people) l).
Proof.
  intros Hwf. apply Forall_fmap, Forall_true. intros h. simpl.
  destruct (joint_value_bounds people h Hwf) as (_ & Hpos & _).
  by apply Qlt_le_weak.
Qed.

Lemma elem_of_observed_true people person :
  person ∈ observed_true people
  ↔ ∃ r, getitem people person = Ok r ∧ trait r = Some true.
Proof.
  unfold observed_true, observed.
  rewrite elem_of_list_to_set, list_elem_of_filter. split.
  - intros [Hobs _]. destruct (getitem people person) as [r|]; [eauto|done].
  - intros (r & Hr & Ht). rewrite Hr. split; [done|].
    eapply elem_of_keys, getitem_elem, Hr.
Qed.

(** The trait set of the persons observed with the trait passes the filter,
    so at least one hypothesis is evaluated. *)
Lemma evaluated_observed_true people :
  (observed_true people, ∅, ∅) ∈ evaluated people.
Proof.
  apply elem_of_evaluated. split.
  - apply elem_of_candidates. split; [|set_solver].
    intros person (r & Hr & _)%elem_of_observed_true.
    rewrite elem_of_list_to_set. eapply elem_of_keys, getitem_elem, Hr.
  - destruct (fails_evidence_spec people (observed_true people))
      as (fails & -> & Hiff).
    destruct fails; [|done].
    destruct (proj1 Hiff eq_refl) as (person & r & b & Hr & Hb & Hne).
    destruct Hne. destruct b.
    + symmetry. apply bool_decide_eq_true, elem_of_observed_true. eauto.
    + symmetry. apply bool_decide_eq_false.
      intros (r' & Hr' & Hb')%elem_of_observed_true. congruence.
Qed.

(** Every evaluated hypothesis agrees with every observation. *)
Lemma evaluated_agrees people h person r b :
  h ∈ evaluated people →
  getitem people person = Ok r → trait r = Some b →
  bool_decide (person ∈ h.1.1) = b.
Proof.
  destruct h as [[have_trait o] t]. intros [_ Hf]%elem_of_evaluated Hr Hb.
  destruct (fails_evidence_spec people have_trait) as (fails & Hf' & Hiff).
  rewrite Hf in Hf'. injection Hf' as <-. simpl.
  destruct (decide (b = bool_decide (person ∈ have_trait))) as [|Hne]; [done|].
  assert (false = true) by (apply Hiff; eauto 6). done.
Qed.

Lemma main_loop_items_positive people person d :
  well_formed people →
  (person, d) ∈ updates (calls_of people) (initial people) →
  (∀ g, 0 <= gene_of d g) ∧ (∀ b, 0 <= trait_of d b) ∧
  0 < trait_mass d ∧ 0 < gene_mass d.
Proof.
  intros Hwf Hin.
  destruct (main_loop_items people person d Hwf Hin) as (_ & Hg & Ht).
  assert (Hg0 : ∀ g, 0 <= gene_of d g).
  { intros g. rewrite Hg. by apply Qsum_nonneg, joint_values_nonneg. }
  assert (Ht0 : ∀ b, 0 <= trait_of d b).
  { intros b. rewrite Ht. by apply Qsum_nonneg, joint_values_nonneg. }
  set (h0 := (observed_true people, (∅ : gset string), (∅ : gset string))).
  destruct (joint_value_bounds people h0 Hwf) as (_ & Hpos & _).
  assert (Hg1 : joint_value people h0 <= gene_of d (updated_gene ∅ ∅ person)).
  { rewrite Hg. apply Qsum_ge_elem; [by apply joint_values_nonneg|].
    apply elem_of_map. exists h0. split; [done|].
    apply list_elem_of_filter. split; [done|apply evaluated_observed_true]. }
  assert (Ht1 : joint_value people h0
                <= trait_of d (bool_decide (person ∈ observed_true people))).
  { rewrite Ht. apply Qsum_ge_elem; [by apply joint_values_nonneg|].
    apply elem_of_map. exists h0. split; [done|].
    apply list_elem_of_filter. split; [done|apply evaluated_observed_true]. }
  split; [done|]. split; [done|]. split.
  - unfold trait_mass. pose proof (Ht0 true). pose proof (Ht0 false).
    destruct (bool_decide (person ∈ observed_true people)); simpl in *; lra.
  - unfold gene_mass. pose proof (Hg0 G0). pose proof (Hg0 G1).
    pose proof (Hg0 G2).
    destruct (updated_gene ∅ ∅ person); simpl in *; lra.
Qed.

(** What [normalize] does to a dictionary of positive masses, item by
    item. *)
Lemma normalize_positive (probabilities : list (string * marginals)) :
  Forall (λ kv, 0 < trait_mass kv.2 ∧ 0 < gene_mass kv.2) probabilities →
  ∃ normalized,
    normalize probabilities = Ok normalized ∧
    Forall2 (λ kv kv',
        kv'.1 = kv.1 ∧ trait_mass kv'.2 == 1 ∧ gene_mass kv'.2 == 1 ∧
        ∃ ct cg, 0 < ct ∧ 0 < cg ∧
          (∀ b, trait_of kv'.2 b == ct * trait_of kv.2 b) ∧
          (∀ g, gene_of kv'.2 g == cg * gene_of kv.2 g))
      probabilities normalized.
Proof.
  induction 1 as [|[person d] l [Ht Hg] _ (normalized & Hl & IH)].
  { exists []. split; [done|constructor]. }
  rewrite normalize_cons, Hl. simpl in Ht, Hg.
  destruct (normalize_person_nonzero d)
    as (d' & ct & cg & -> & Hct & Hcg & Htr & Hge).
  { intros E. rewrite E in Ht. discriminate Ht. }
  { intros E. rewrite E in Hg. discriminate Hg. }
  cbn [mbind result_bind]. eexists. split; [reflexivity|].
  constructor; [|done]. simpl. split; [done|]. split; [|split].
  - unfold trait_mass in *. rewrite (Htr true), (Htr false), <- Hct. simpl. ring.
  - unfold gene_mass in *.
    rewrite (Hge G0), (Hge G1), (Hge G2), <- Hcg. simpl. ring.
  - exists ct, cg. split; [by apply (positive_factor ct (trait_mass d))|].
    split; [by apply (positive_factor cg (gene_mass d))|]. done.
Qed.

Lemma main_items people :
  well_formed people →
  ∃ normalized,
    main people = Ok normalized ∧
    Forall2 (λ kv kv',
        kv'.1 = kv.1 ∧ trait_mass kv'.2 == 1 ∧ gene_mass kv'.2 == 1 ∧
        ∃ ct cg, 0 < ct ∧ 0 < cg ∧
          (∀ b, trait_of kv'.2 b == ct * trait_of kv.2 b) ∧
          (∀ g, gene_of kv'.2 g == cg * gene_of kv.2 g))
      (updates (calls_of people) (initial people)) normalized.
Proof.
  intros Hwf. unfold main. rewrite main_loop_updates by done.
  cbn [mbind result_bind]. apply normalize_positive.
  apply Forall_forall. intros [person d] Hin. simpl.
  destruct (main_loop_items_positive people person d Hwf Hin) as (_ & _ & ? & ?).
  done.
Qed.

Lemma filter_none {A : Type} (P : A → Prop) `{∀ x, Decision (P x)} (l : list A) :
  (∀ x, x ∈ l → ¬ P x) → filter P l = [].
Proof.
  intros Hl. destruct (filter P l) as [|x l'] eqn:E; [done|].
  assert (Hx : x ∈ filter P l) by (rewrite E; left).
  apply list_elem_of_filter in Hx as [HP Hin]. by destruct (Hl x Hin).
Qed.

Lemma Forall2_elem_of_r {A B : Type} (P : A → B → Prop) (l : list A) (k : list B)
    (y : B) :
  Forall2 P l k → y ∈ k → ∃ x, x ∈ l ∧ P x y.
Proof.
  induction 1 as [|x y' l k Hxy _ IH]; [by intros ?%elem_of_nil|].
  intros [->|Hin]%elem_of_cons.
  - exists x. split; [left|done].
  - destruct (IH Hin) as (x' & ? & ?). exists x'. split; [by right|done].
Qed.

Lemma Forall2_keys {V W : Type} (P : string * V → string * W → Prop)
    (l : list (string * V)) (k : list (string * W)) :
  Forall2 (λ kv kv', kv'.1 = kv.1 ∧ P kv kv') l k → keys k = keys l.
Proof.
  induction 1 as [|x y l k [Hxy _] _ IH]; [done|]. simpl. by rewrite Hxy, IH.
Qed.

(** X11. On a population with paired parents the whole run returns: [main]
    yields, for the persons of the population in their order, a gene
    distribution and a trait distribution that each sum to 1 and have no
    negative entry.  The division by zero cannot happen, because the trait
    set of the observations themselves always passes the evidence filter
    and every joint probability is positive. *)
Theorem main_returns_distributions (people : list (string * Person)) :
  well_formed people →
  ∃ normalized,
    main people = Ok normalized ∧
    keys normalized = keys people ∧
    Forall (λ kv,
        trait_True kv.2 + trait_False kv.2 == 1 ∧
        gene_0 kv.2 + gene_1 kv.2 + gene_2 kv.2 == 1 ∧
        (∀ b, 0 <= trait_of kv.2 b) ∧ (∀ g, 0 <= gene_of kv.2 g))
      normalized.
Proof.
  intros Hwf. destruct (main_items people Hwf) as (normalized & Hmain & Hrel).
  exists normalized. split; [done|]. split.
  - rewrite (Forall2_keys _ _ _ Hrel), updates_items. unfold keys.
    rewrite map_map, (map_ext _ fst) by done. apply keys_initial.
  - apply Forall_forall. intros [person d'] Hin.
    destruct (Forall2_elem_of_r _ _ _ _ Hrel Hin)
      as ([person0 d] & Hin0 & Hk & Ht & Hg & ct & cg & Hct & Hcg & Htr & Hge).
    simpl in *. subst person0.
    destruct (main_loop_items_positive people person d Hwf Hin0)
      as (Hg0 & Ht0 & _).
    split; [exact Ht|]. split; [exact Hg|]. split.
    + intros b. rewrite Htr. pose proof (Ht0 b). nra.
    + intros g. rewrite Hge. pose proof (Hg0 g). nra.
Qed.

(** X12. On a population with paired parents the run reproduces the
    evidence: a person whose trait is observed gets probability 1 for the
    observed value and 0 for the other one. *)
Theorem main_observed_trait_certain (people : list (string * Person)) :
  well_formed people →
  ∃ normalized,
    main people = Ok normalized ∧
    ∀ person d r b,
      (person, d) ∈ normalized →
      getitem people person = Ok r → trait r = Some b →
      trait_of d b == 1 ∧ trait_of d (negb b) == 0.
Proof.
  intros Hwf. destruct (main_items people Hwf) as (normalized & Hmain & Hrel).
  exists normalized. split; [done|]. intros person d' r b Hin Hr Hb.
  destruct (Forall2_elem_of_r _ _ _ _ Hrel Hin)
    as ([person0 d] & Hin0 & Hk & Ht & Hg & ct & cg & Hct & Hcg & Htr & Hge).
  simpl in *. subst person0.
  destruct (main_loop_items people person d Hwf Hin0) as (_ & _ & Hsum).
  assert (Hzero : trait_of d (negb b) == 0).
  { rewrite Hsum, filter_none; [reflexivity|].
    intros h Hh. simpl.
    rewrite (evaluated_agrees people h person r b Hh Hr Hb). by destruct b. }
  assert (Hzero' : trait_of d' (negb b) == 0).
  { rewrite Htr, Hzero. ring. }
  split; [|done].
  unfold trait_mass in Ht. destruct b; simpl in *; lra.
Qed.

(** ** More on [powerset] *)

Lemma combinations_length_sublist {A : Type} (l c : list A) (r : nat) :
  c ∈ combinations l r → length c = r ∧ c `sublist_of` l.
Proof.
  revert r c. induction l as [|x l IH]; intros [|r] c; simpl.
  - intros ->%list_elem_of_singleton. split; [done|constructor].
  - by intros ?%elem_of_nil.
  - intros ->%list_elem_of_singleton. split; [done|apply sublist_nil_l].
  - intros [(c' & -> & Hc')%elem_of_map|Hc]%elem_of_app.
    + destruct (IH r c' Hc') as [<- Hsub]. split; [done|by constructor].
    + destruct (IH (S r) c Hc) as [Hlen Hsub]. split; [done|by constructor].
Qed.

Lemma combinations_all {A : Type} (l : list A) : combinations l (length l) = [l].
Proof.
  induction l as [|x l IH]; [done|].
  simpl. rewrite IH, combinations_too_long by lia. done.
Qed.

Lemma flat_map_seq_ordered {A : Type} (f : nat → list A) (m : A → nat) (a k : nat) :
  (∀ r x, x ∈ f r → m x = r) →
  ∀ i j x y, (i ≤ j)%nat →
    flat_map f (seq a k) !! i = Some x →
    flat_map f (seq a k) !! j = Some y →
    (m x ≤ m y)%nat.
Proof.
  intros Hm. revert a. induction k as [|k IH]; intros a i j x y Hij; simpl.
  { by rewrite lookup_nil. }
  rewrite !lookup_app_Some.
  intros [Hi|[Hi Hi']] [Hj|[Hj Hj']].
  - apply list_elem_of_lookup_2, Hm in Hi.
    apply list_elem_of_lookup_2, Hm in Hj. lia.
  - apply list_elem_of_lookup_2, Hm in Hi.
    apply list_elem_of_lookup_2, elem_of_flat_map in Hj' as (r & Hy & Hr).
    apply Hm in Hy. apply list_elem_of_In, in_seq in Hr. lia.
  - apply lookup_lt_Some in Hj. lia.
  - eapply (IH (S a)); [|exact Hi'|exact Hj']. lia.
Qed.

Lemma map_flat_map {A B C : Type} (g : B → C) (f : A → list B) (l : list A) :
  map g (flat_map f l) = flat_map (λ a, map g (f a)) l.
Proof.
  induction l as [|a l IH]; [done|]. simpl. by rewrite map_app, IH.
Qed.

(** X13. [powerset] lists the subsets by size: the empty set comes first,
    the set itself last, and a subset never comes before a smaller one.
    For the empty set the list is the empty set alone. *)
Theorem powerset_ordered_by_size (s : gset string) :
  head (powerset s) = Some ∅ ∧
  last (powerset s) = Some s ∧
  (∀ i j X Y, (i ≤ j)%nat →
     powerset s !! i = Some X → powerset s !! j = Some Y →
     (size X ≤ size Y)%nat) ∧
  (s = ∅ → powerset s = [∅]).
Proof.
  split; [|split; [|split]].
  - unfold powerset, all_combinations.
    replace (length (elements s) + 1)%nat with (S (length (elements s))) by lia.
    simpl. by rewrite combinations_0.
  - unfold powerset, all_combinations.
    replace (length (elements s) + 1)%nat with (S (length (elements s))) by lia.
    rewrite seq_S, flat_map_app, map_app. simpl.
    rewrite combinations_all, app_nil_r. simpl.
    rewrite last_snoc. f_equal. apply list_to_set_elements_L.
  - unfold powerset, all_combinations. rewrite map_flat_map.
    apply (flat_map_seq_ordered _ size).
    intros r X (c & -> & [Hlen Hsub]%combinations_length_sublist)%elem_of_map.
    rewrite size_list_to_set; [done|].
    eapply sublist_NoDup; [apply (NoDup_elements s)|done].
  - intros ->. apply powerset_empty.
Qed.

(** ** The number of evaluated hypotheses *)








(** ** From the rows of the file to the distributions *)

Lemma load_data_paired_rows (rows : list Row) :
  (∀ row, row ∈ rows →
     (row_mother row = ""%string ↔ row_father row = ""%string)) →
  well_formed (load_data rows).
Proof.
  intros Hrows. destruct (load_data_last_row_wins_aux rows) as (Hnd & Hget).
  unfold well_formed. apply Forall_forall. intros [k r] Hin. simpl.
  apply getitem_NoDup in Hin; [|done]. rewrite Hget in Hin.
  unfold last_row in Hin.
  destruct (find _ _) as [row|] eqn:Hfind; [|done]. injection Hin as <-.
  apply find_some in Hfind as [Hrow _].
  apply list_elem_of_In, elem_of_reverse, Hrows in Hrow.
  unfold parents_paired, record_of_row, or_None. simpl.
  repeat case_decide; try done; tauto.
Qed.

(** X15. For rows that each have the mother and father fields both blank or
    both filled, loading and running never fails: [main] returns one entry
    per distinct name, in the order in which the names first appear. *)
Theorem main_load_data (rows : list Row) :
  (∀ row, row ∈ rows →
     (row_mother row = ""%string ↔ row_father row = ""%string)) →
  ∃ normalized,
    main (load_data rows) = Ok normalized ∧
    keys normalized = reverse (remove_dups (reverse (map row_name rows))).
Proof.
  intros Hrows%load_data_paired_rows.
  destruct (main_items (load_data rows) Hrows) as (normalized & Hmain & Hrel).
  exists normalized. split; [done|].
  rewrite (Forall2_keys _ _ _ Hrel), updates_items. unfold keys.
  rewrite map_map, (map_ext _ fst) by done.
  etrans; [apply keys_initial|apply keys_load_data].
Qed.







(** ** The further properties at concrete inputs *)

Example load_data_sample_rows : load_data sample_rows = sample_family.
Proof. reflexivity. Qed.

(** X3 on the sample family, James being put in both gene sets. *)
Lemma joint_probability_skips_overlap_witness :
  NoDup (keys sample_family) ∧ well_formed sample_family ∧
  ∃ p,
    joint_probability sample_family {["Harry"%string; "James"%string]}
      {["James"%string]} ∅ = Ok p ∧
    p == Qprod (map (λ kv, spec_person_probability
                             {["Harry"%string; "James"%string]}
                             {["James"%string]} ∅ kv.1 kv.2)
                    (filter (λ kv, kv.1 ∉ ({["Harry"%string; "James"%string]}
                                           : gset string)
                                   ∨ kv.1 ∉ ({["James"%string]} : gset string))
                            sample_family)).
Proof.
  split; [exact sample_family_NoDup|].
  split; [exact sample_family_well_formed|].
  exact (joint_probability_skips_overlap sample_family
           {["Harry"%string; "James"%string]} {["James"%string]} ∅
           sample_family_NoDup sample_family_well_formed).
Defined.

(** X10 on the sample family. *)
Lemma main_loop_marginals_witness :
  well_formed sample_family ∧
  ∃ probabilities,
    main_loop sample_family (initial sample_family) = Ok probabilities ∧
    keys probabilities = keys sample_family ∧
    ∀ person d, (person, d) ∈ probabilities →
      (∀ g, gene_of d g
            == Qsum (map (joint_value sample_family)
                         (filter (λ h, updated_gene h.1.2 h.2 person = g)
                                 (evaluated sample_family)))) ∧
      (∀ b, trait_of d b
            == Qsum (map (joint_value sample_family)
                         (filter (λ h, bool_decide (person ∈ h.1.1) = b)
                                 (evaluated sample_family)))).
Proof.
  split; [exact sample_family_well_formed|].
  exact (main_loop_marginals sample_family sample_family_well_formed).
Defined.

(** X11 on the sample family. *)
Lemma main_returns_distributions_witness :
  well_formed sample_family ∧
  ∃ normalized,
    main sample_family = Ok normalized ∧
    keys normalized = keys sample_family ∧
    Forall (λ kv,
        trait_True kv.2 + trait_False kv.2 == 1 ∧
        gene_0 kv.2 + gene_1 kv.2 + gene_2 kv.2 == 1 ∧
        (∀ b, 0 <= trait_of kv.2 b) ∧ (∀ g, 0 <= gene_of kv.2 g))
      normalized.
Proof.
  split; [exact sample_family_well_formed|].
  exact (main_returns_distributions sample_family sample_family_well_formed).
Defined.

(** X12 on the sample family. *)
Lemma main_observed_trait_certain_witness :
  well_formed sample_family ∧
  ∃ normalized,
    main sample_family = Ok normalized ∧
    ∀ person d r b,
      (person, d) ∈ normalized →
      getitem sample_family person = Ok r → trait r = Some b →
      trait_of d b == 1 ∧ trait_of d (negb b) == 0.
Proof.
  split; [exact sample_family_well_formed|].
  exact (main_observed_trait_certain sample_family sample_family_well_formed).
Defined.

Lemma sample_rows_paired :
  ∀ row, row ∈ sample_rows →
    (row_mother row = ""%string ↔ row_father row = ""%string).
Proof.
  intros row Hrow. unfold sample_rows in Hrow.
  repeat (apply elem_of_cons in Hrow as [->|Hrow]); simpl;
    [split; discriminate|done|done|by apply elem_of_nil in Hrow].
Defined.

(** X15 on the rows of the sample family. *)
Lemma main_load_data_witness :
  (∀ row, row ∈ sample_rows →
     (row_mother row = ""%string ↔ row_father row = ""%string)) ∧
  ∃ normalized,
    main (load_data sample_rows) = Ok normalized ∧
    keys normalized
    = reverse (remove_dups (reverse (map row_name sample_rows))).
Proof.
  split; [exact sample_rows_paired|].
  exact (main_load_data sample_rows sample_rows_paired).
Defined.

